(** * Page replacement simulator: FIFO, LRU and OPT fault counting

    A shallow embedding of [PageReplacement.h].  Vectors and deques of
    [int] are lists of [Z]; iterators are positions (indices) into the
    container they walk; an access outside the container, the use of an
    iterator that a modification of its container has invalidated, a
    modulo by zero, a [pop_front] on an empty deque and a signed overflow
    are undefined behaviour and make the embedded function return
    [Undefined].  [CalculatePageFaults] is a function of the three fields
    of the object; the values of [rand()] are a parameter of
    [GenerateRefString], whose [while] loop runs on fuel. *)

From Stdlib Require Import ZArith Lia Ascii.
From stdpp Require Import base list sorting gmap strings pretty.

Local Open Scope Z_scope.

(** ** Outcomes of a C++ call *)

Inductive outcome (A : Type) : Type :=
| Ok (a : A)        (* the call returns [a] *)
| Undefined         (* the call runs into undefined behaviour *)
| LengthError       (* std::length_error thrown by a vector constructor *)
| OutOfFuel.        (* the loop did not finish within the given fuel *)

Arguments Ok {A} a.
Arguments Undefined {A}.
Arguments LengthError {A}.
Arguments OutOfFuel {A}.

#[global] Instance outcome_bind : MBind outcome := λ A B f m,
  match m with
  | Ok a => f a
  | Undefined => Undefined
  | LengthError => LengthError
  | OutOfFuel => OutOfFuel
  end.

(** ** Machine integers *)

Definition INT_MAX : Z := 2147483647.

(** [(size_t) n] for an [int] n on an LP64 target. *)
Definition size_t_of_int (n : Z) : Z := n mod 2 ^ 64.

(** [n += 1] on an [int]: overflow of a signed integer is undefined. *)
Definition incr (n : Z) : outcome Z :=
  if n <? INT_MAX then Ok (n + 1) else Undefined.

(** [*it] for an iterator at position [i] of [v]. *)
Definition deref (v : list Z) (i : nat) : outcome Z :=
  match v !! i with
  | Some x => Ok x
  | None => Undefined
  end.

(** ** AbstractPageReplacement::FindInContainer *)

Fixpoint FindInContainer (needle : Z) (haystack : list Z) : bool :=
  match haystack with
  | [] => false
  | x :: rest => if x =? needle then true else FindInContainer needle rest
  end.

(** ** AbstractPageReplacement::CleanRefString *)

(** The loop [for (i = ...; i != begin(); --i)] entered with the iterator
    at position [i]. *)
Fixpoint clean_loop (i : nat) (ref_string : list Z) : outcome (list Z) :=
  match i with
  | O => Ok ref_string
  | S i' =>
      a ← deref ref_string i;
      b ← deref ref_string i';
      if a =? b
      then clean_loop i' (delete i ref_string)
      else clean_loop i' ref_string
  end.

(** The traversal starts at [ref_string.end()]. *)
Definition CleanRefString (ref_string : list Z) : outcome (list Z) :=
  clean_loop (length ref_string) ref_string.

(** The sanitizer as the specification words it: scanning left to right,
    delete every element equal to its immediate predecessor in the
    surviving sequence. *)
Fixpoint compress (prev : Z) (s : list Z) : list Z :=
  match s with
  | [] => []
  | y :: rest => if y =? prev then compress prev rest else y :: compress y rest
  end.

Definition Sanitize_spec (s : list Z) : list Z :=
  match s with
  | [] => []
  | x :: rest => x :: compress x rest
  end.

(** No two adjacent elements are equal. *)
Fixpoint no_adjacent_dup (s : list Z) : bool :=
  match s with
  | [] => true
  | x :: rest =>
      match rest with
      | [] => true
      | y :: _ => negb (x =? y) && no_adjacent_dup rest
      end
  end.

(** ** The object: fields set by the constructor *)

Record AbstractPageReplacement : Type := {
  ref_string_ : list Z;
  num_pages_ : Z;
  num_frames_ : Z
}.

(** The constructor copies the reference string, cleans the copy and
    stores the two bounds. *)
Definition construct (ref_string : list Z) (num_pages num_frames : Z)
  : outcome AbstractPageReplacement :=
  cleaned ← CleanRefString ref_string;
  Ok {| ref_string_ := cleaned; num_pages_ := num_pages; num_frames_ := num_frames |}.

(** The state of a replay: [current_pages] and [page_faults]. *)
Definition replay_state : Type := list Z * Z.

(** [deque::pop_front]; undefined on an empty deque. *)
Definition pop_front (q : list Z) : outcome (list Z) :=
  match q with
  | [] => Undefined
  | _ :: rest => Ok rest
  end.

(** The [for] loop over [ref_string_] of FIFO and LRU. *)
Fixpoint replay (step : replay_state → Z → outcome replay_state)
    (refs : list Z) (st : replay_state) : outcome replay_state :=
  match refs with
  | [] => Ok st
  | x :: rest => st' ← step st x; replay step rest st'
  end.


(** [age hist y] is the number of requests made after the latest request
    for page [y], in a history [hist] that lists the requests made so far
    with the latest first. *)
Fixpoint age (hist : list Z) (y : Z) : nat :=
  match hist with
  | [] => O
  | h :: older => if h =? y then O else S (age older y)
  end.

(** The number of distinct pages requested in [s]. *)
Definition distinct_pages (s : list Z) : Z :=
  Z.of_nat (size (list_to_set s : gset Z)).

(** The number of distinct pages of [s] that are not in [l]. *)
Definition new_pages (s l : list Z) : Z :=
  Z.of_nat (size (list_to_set s ∖ list_to_set l : gset Z)).

(** The number of distinct pages in [l] and [s] together. *)
Definition all_pages (l s : list Z) : Z :=
  Z.of_nat (size (list_to_set l ∪ list_to_set s : gset Z)).

(** The deque lists its pages from the least to the most recently
    requested one. *)
Definition recency_ordered (hist : list Z) (current_pages : list Z) : Prop :=
  StronglySorted (λ a b, (age hist b < age hist a)%nat) current_pages.

(** ** FIFOPageReplacement *)

Module FIFOPageReplacement.

(** One iteration of the loop, on the request [x]. *)
Definition step (num_frames : Z) (st : replay_state) (x : Z)
  : outcome replay_state :=
  let '(current_pages, page_faults) := st in
  if negb (FindInContainer x current_pages) then
    current_pages ←
      (if Z.of_nat (length current_pages) =? size_t_of_int num_frames
       then pop_front current_pages
       else Ok current_pages);
    page_faults ← incr page_faults;
    Ok (current_pages ++ [x], page_faults)
  else Ok st.

Definition CalculatePageFaults (this : AbstractPageReplacement) : outcome Z :=
  st ← replay (step (num_frames_ this)) (ref_string_ this) ([], 0);
  Ok (snd st).

End FIFOPageReplacement.

(** ** LRUPageReplacement *)

Module LRUPageReplacement.

(** The hit branch: [for (j = begin(); j != end(); ++j)], with [ahead]
    the elements from the iterator [j] to [end()]; the deque is as it was
    at [begin()] for as long as no element has matched.  On a match,
    [current_pages.push_back( *j)] comes first: an insertion at an end of
    a [std::deque] invalidates every iterator of the deque, [j] included,
    so the [current_pages.erase(j)] that follows (and the [++j] after it)
    uses an invalid iterator, which is undefined. *)
Fixpoint touch_loop (x : Z) (ahead current_pages : list Z)
  : outcome (list Z) :=
  match ahead with
  | [] => Ok current_pages
  | y :: ahead' =>
      if y =? x then Undefined
      else touch_loop x ahead' current_pages
  end.

Definition touch (x : Z) (current_pages : list Z) : outcome (list Z) :=
  touch_loop x current_pages current_pages.

Definition step (num_frames : Z) (st : replay_state) (x : Z)
  : outcome replay_state :=
  let '(current_pages, page_faults) := st in
  if negb (FindInContainer x current_pages) then
    current_pages ←
      (if Z.of_nat (length current_pages) =? size_t_of_int num_frames
       then pop_front current_pages
       else Ok current_pages);
    page_faults ← incr page_faults;
    Ok (current_pages ++ [x], page_faults)
  else
    current_pages ← touch x current_pages;
    Ok (current_pages, page_faults).

Definition CalculatePageFaults (this : AbstractPageReplacement) : outcome Z :=
  st ← replay (step (num_frames_ this)) (ref_string_ this) ([], 0);
  Ok (snd st).

End LRUPageReplacement.

(** ** OPTPageReplacement *)

Module OPTPageReplacement.

(** The loop [for (j = i; j != ref_string_.end(); j++)] filling
    [uniqueMemoryStack] from the requests [future] at and after [i]. *)
Fixpoint build_stack (current_pages future uniqueMemoryStack : list Z)
  : list Z :=
  match future with
  | [] => uniqueMemoryStack
  | y :: rest =>
      if negb (FindInContainer y current_pages)
      then build_stack current_pages rest uniqueMemoryStack
      else if negb (FindInContainer y uniqueMemoryStack)
      then build_stack current_pages rest (uniqueMemoryStack ++ [y])
      else build_stack current_pages rest uniqueMemoryStack
  end.

(** [*uniqueMemoryStack.rbegin()] *)
Definition rbegin (uniqueMemoryStack : list Z) : outcome Z :=
  match last uniqueMemoryStack with
  | Some top => Ok top
  | None => Undefined
  end.

(** Erase the first page equal to the top of the stack, then [break]. *)
Fixpoint erase_top (uniqueMemoryStack current_pages : list Z)
  : outcome (list Z) :=
  match current_pages with
  | [] => Ok []
  | y :: rest =>
      top ← rbegin uniqueMemoryStack;
      if y =? top then Ok rest
      else rest' ← erase_top uniqueMemoryStack rest; Ok (y :: rest')
  end.

(** Erase the first page that is not in the stack, then [break]. *)
Fixpoint erase_unused (uniqueMemoryStack current_pages : list Z) : list Z :=
  match current_pages with
  | [] => []
  | y :: rest =>
      if negb (FindInContainer y uniqueMemoryStack) then rest
      else y :: erase_unused uniqueMemoryStack rest
  end.

(** One iteration of the outer loop: [x] is [*i] and [rest] the requests
    after it. *)
Definition step (num_pages num_frames : Z) (st : replay_state)
    (x : Z) (rest : list Z) : outcome replay_state :=
  let '(current_pages, page_faults) := st in
  if (Z.of_nat (length current_pages) =? size_t_of_int num_pages)
     && negb (FindInContainer x current_pages)
  then
    let uniqueMemoryStack := build_stack current_pages (x :: rest) [] in
    current_pages ←
      (if Z.of_nat (length uniqueMemoryStack) =? size_t_of_int num_pages
       then erase_top uniqueMemoryStack current_pages
       else Ok (erase_unused uniqueMemoryStack current_pages));
    page_faults ← incr page_faults;
    Ok (current_pages ++ [x], page_faults)
  else if negb (Z.of_nat (length current_pages) =? size_t_of_int num_frames)
          && negb (FindInContainer x current_pages)
  then
    page_faults ← incr page_faults;
    Ok (current_pages ++ [x], page_faults)
  else Ok st.

Fixpoint loop (num_pages num_frames : Z) (refs : list Z) (st : replay_state)
  : outcome replay_state :=
  match refs with
  | [] => Ok st
  | x :: rest =>
      st' ← step num_pages num_frames st x rest;
      loop num_pages num_frames rest st'
  end.

Definition CalculatePageFaults (this : AbstractPageReplacement) : outcome Z :=
  st ← loop (num_pages_ this) (num_frames_ this) (ref_string_ this) ([], 0);
  Ok (snd st).

End OPTPageReplacement.

(** ** AbstractPageReplacement::GenerateRefString *)

(** [rand] is the sequence of values the C library's [rand()] returns, and
    the counter [k] the number of calls made so far. *)

(** [rand() % upper_bound]; [%] truncates, and a zero divisor is
    undefined. *)
Definition draw (rand : nat → Z) (upper_bound : Z) (k : nat)
  : outcome (Z * nat) :=
  if upper_bound =? 0 then Undefined
  else Ok (Z.rem (rand k) upper_bound, S k).

(** [v[i] = x] *)
Definition assign (v : list Z) (i : nat) (x : Z) : outcome (list Z) :=
  if Nat.ltb i (length v) then Ok (<[i := x]> v) else Undefined.

(** [while (ref_string[i] == ref_string[i - 1]) ref_string[i] = rand() % upper_bound;] *)
Fixpoint redraw_loop (fuel : nat) (rand : nat → Z) (upper_bound : Z)
    (i : nat) (st : list Z * nat) : outcome (list Z * nat) :=
  match fuel with
  | O => OutOfFuel
  | S fuel' =>
      let '(ref_string, k) := st in
      a ← deref ref_string i;
      b ← deref ref_string (i - 1);
      if a =? b then
        '(r, k') ← draw rand upper_bound k;
        ref_string' ← assign ref_string i r;
        redraw_loop fuel' rand upper_bound i (ref_string', k')
      else Ok st
  end.

(** [for (int i = ...; i < size; ++i)] with [n] iterations left. *)
Fixpoint fill_loop (fuel : nat) (rand : nat → Z) (upper_bound : Z)
    (n i : nat) (st : list Z * nat) : outcome (list Z * nat) :=
  match n with
  | O => Ok st
  | S n' =>
      let '(ref_string, k) := st in
      '(r, k') ← draw rand upper_bound k;
      ref_string' ← assign ref_string i r;
      st' ← redraw_loop fuel rand upper_bound i (ref_string', k');
      fill_loop fuel rand upper_bound n' (S i) st'
  end.

(** [fuel] bounds the number of iterations of each [while] loop. *)
Definition GenerateRefString (fuel : nat) (rand : nat → Z)
    (size upper_bound : Z) : outcome (list Z) :=
  if size <? 0 then LengthError
  else
    let ref_string := replicate (Z.to_nat size) 0 in
    if size =? 0 then Ok ref_string
    else
      '(r, k) ← draw rand upper_bound 0;
      ref_string' ← assign ref_string 0 r;
      '(ref_string'', _) ←
        fill_loop fuel rand upper_bound (Z.to_nat (size - 1)) 1 (ref_string', k);
      Ok ref_string''.

(** ** Demand paging in general *)

(** A replay of [s] by some demand-paging policy with [c] frames that
    starts with the set [X] of resident pages and makes [n] faults: a hit
    changes nothing; a miss loads the requested page, after the removal of
    a resident page of the policy's choice when [c] pages are resident. *)
Inductive demand_run (c : nat) : gset Z → list Z → Z → Prop :=
| demand_nil X : demand_run c X [] 0
| demand_hit X x s n :
    x ∈ X → demand_run c X s n → demand_run c X (x :: s) n
| demand_load X x s n :
    x ∉ X → size X ≠ c → demand_run c ({[x]} ∪ X) s n →
    demand_run c X (x :: s) (n + 1)
| demand_evict X x y s n :
    x ∉ X → size X = c → y ∈ X →
    demand_run c ({[x]} ∪ X ∖ {[y]}) s n →
    demand_run c X (x :: s) (n + 1).

(** In [s] the page [b] is not requested, or not before page [a] is. *)
Definition no_later (a b : Z) (s : list Z) : Prop :=
  b ∉ s ∨ ∃ pre suf, s = pre ++ a :: suf ∧ b ∉ pre.

(** ** MainWindow: the reference string as text *)

Module MainWindow.

(** The characters that [operator>>] skips before it extracts a [char]:
    the white space of the classic locale. *)
Definition is_space (c : ascii) : bool :=
  let b := N_of_ascii c in
  N.eqb b 32 || (N.leb 9 b && N.leb b 13).

(** The value of a [char] converted to [int]; [char] is signed. *)
Definition char_to_int (c : ascii) : Z :=
  let b := Z.of_N (N_of_ascii c) in
  if b <? 128 then b else b - 256.

(** [std::isdigit]: undefined for a negative argument other than [EOF]. *)
Definition isdigit (c : Z) : outcome bool :=
  if (c <? 0) && negb (c =? -1) then Undefined
  else Ok ((48 <=? c) && (c <=? 57)).

(** The loop [for (char c; ss >> c;)] of [CalculatePageFaults] on the
    characters [ss] left in the stream. *)
Fixpoint read_digits (ss : string) (ref_string : list Z)
  : outcome (list Z) :=
  match ss with
  | EmptyString => Ok ref_string
  | String c rest =>
      if is_space c then read_digits rest ref_string
      else
        digit ← isdigit (char_to_int c);
        if negb digit then read_digits rest ref_string
        else read_digits rest (ref_string ++ [char_to_int c - 48])
  end.

(** [std::copy] of the vector to an [ostream_iterator<int>(ss, ", ")]:
    every element in decimal, each followed by the delimiter. *)
Fixpoint write_ints (gen_ref_string : list Z) : string :=
  match gen_ref_string with
  | [] => ""
  | x :: rest => pretty x +:+ ", " +:+ write_ints rest
  end.

(** [s.substr(0, s.length() - 2)]: the subtraction is made in [size_t]
    and wraps around for a length below 2; [substr] stops at the end of
    the string. *)
Definition drop_last_two (s : string) : string :=
  let len := Z.of_nat (String.length s) in
  let count := if len <? 2 then len - 2 + 2 ^ 64 else len - 2 in
  String.substring 0 (Z.to_nat (Z.min count len)) s.

(** The text that [GenerateReferenceString] puts into the text box. *)
Definition GenerateReferenceString (fuel : nat) (rand : nat → Z)
    (numPages : Z) : outcome string :=
  gen_ref_string ← GenerateRefString fuel rand 20 numPages;
  Ok (drop_last_two (write_ints gen_ref_string)).

End MainWindow.

(* ===================================================================== *)
(** * Properties *)
(* ===================================================================== *)

(** ** The sanitizer *)

Section Sanitizer.

Implicit Types (s v pre suf : list Z) (x y prev : Z).

Lemma deref_Ok v i x : v !! i = Some x → deref v i = Ok x.
Proof. unfold deref. by intros ->. Qed.

Lemma deref_past_end v i : (length v ≤ i)%nat → deref v i = Undefined.
Proof. intros H. unfold deref. by rewrite lookup_ge_None_2. Qed.

Lemma CleanRefString_nil : CleanRefString [] = Ok [].
Proof. reflexivity. Qed.

(** Appending to a sequence that ends in [y]. *)
Lemma compress_snoc_same prev s y :
  compress prev (s ++ [y; y]) = compress prev (s ++ [y]).
Proof.
  revert prev. induction s as [|a s IH]; intros prev; simpl.
  - destruct (Z.eqb_spec y prev) as [->|Hne]; [done|].
    by rewrite Z.eqb_refl.
  - destruct (a =? prev); by rewrite IH.
Qed.

Lemma compress_snoc_other prev s x y :
  x ≠ y → compress prev (s ++ [y; x]) = compress prev (s ++ [y]) ++ [x].
Proof.
  intros Hxy. revert prev. induction s as [|a s IH]; intros prev; simpl.
  - destruct (Z.eqb_spec y prev) as [->|Hne].
    + by destruct (Z.eqb_spec x prev).
    + by destruct (Z.eqb_spec x y).
  - destruct (a =? prev); by rewrite IH.
Qed.

Lemma Sanitize_spec_snoc_same s y :
  Sanitize_spec (s ++ [y; y]) = Sanitize_spec (s ++ [y]).
Proof.
  destruct s as [|a s]; simpl.
  - by rewrite Z.eqb_refl.
  - by rewrite compress_snoc_same.
Qed.

Lemma Sanitize_spec_snoc_other s x y :
  x ≠ y → Sanitize_spec (s ++ [y; x]) = Sanitize_spec (s ++ [y]) ++ [x].
Proof.
  intros Hxy. destruct s as [|a s]; simpl.
  - by destruct (Z.eqb_spec x y).
  - by rewrite compress_snoc_other.
Qed.

(** A list of length [k + 2] ends in two elements. *)
Lemma split_last_two pre k :
  length pre = S (S k) →
  ∃ pre0 b a, pre = pre0 ++ [b; a] ∧ length pre0 = k.
Proof.
  intros Hlen.
  destruct (decide (pre = [])) as [->|Hne]; [done|].
  destruct (exists_last Hne) as [pre1 [a ->]].
  rewrite length_app in Hlen; simpl in Hlen.
  destruct (decide (pre1 = [])) as [->|Hne1]; [simpl in Hlen; lia|].
  destruct (exists_last Hne1) as [pre0 [b ->]].
  rewrite length_app in Hlen; simpl in Hlen.
  exists pre0, b, a. split; [by rewrite <- app_assoc | lia].
Qed.

(** Entered one position before the end, at the last element, the loop
    stays inside the vector and compresses the part at and before the
    iterator. *)
Lemma clean_loop_in_bounds k : ∀ pre suf,
  length pre = S k →
  clean_loop k (pre ++ suf) = Ok (Sanitize_spec pre ++ suf).
Proof.
  induction k as [|k IH]; intros pre suf Hlen.
  - destruct pre as [|x [|??]]; simplify_eq/=. done.
  - destruct (split_last_two pre k Hlen) as (pre0 & b & a & -> & Hk).
    cbn [clean_loop].
    rewrite (deref_Ok _ (S k) a), (deref_Ok _ k b); cycle 1.
    { rewrite <- app_assoc, lookup_app_r by lia.
      replace (k - length pre0)%nat with 0%nat by lia. reflexivity. }
    { rewrite <- app_assoc, lookup_app_r by lia.
      replace (S k - length pre0)%nat with 1%nat by lia. reflexivity. }
    cbn [mbind outcome_bind].
    destruct (Z.eqb_spec a b) as [->|Hne].
    + replace (delete (S k) ((pre0 ++ [b; b]) ++ suf))
        with ((pre0 ++ [b]) ++ suf).
      * rewrite IH by (rewrite length_app; simpl; lia).
        by rewrite Sanitize_spec_snoc_same.
      * replace (S k) with (length (pre0 ++ [b]))
          by (rewrite length_app; simpl; lia).
        replace ((pre0 ++ [b; b]) ++ suf) with ((pre0 ++ [b]) ++ b :: suf)
          by (by rewrite <- !app_assoc).
        by rewrite delete_middle.
    + replace ((pre0 ++ [b; a]) ++ suf) with ((pre0 ++ [b]) ++ a :: suf)
        by (by rewrite <- !app_assoc).
      rewrite IH by (rewrite length_app; simpl; lia).
      rewrite Sanitize_spec_snoc_other by done.
      by rewrite <- !app_assoc.
Qed.

(** What the loop computes when entered at the last element. *)
Lemma clean_loop_from_last x v :
  clean_loop (length v) (x :: v) = Ok (Sanitize_spec (x :: v)).
Proof.
  pose proof (clean_loop_in_bounds (length v) (x :: v) [] eq_refl) as H.
  by rewrite !app_nil_r in H.
Qed.

Lemma compress_no_adjacent_dup prev s :
  no_adjacent_dup (prev :: compress prev s) = true.
Proof.
  revert prev. induction s as [|y s IH]; intros prev; [done|].
  cbn [compress]. destruct (Z.eqb_spec y prev) as [->|Hne]; [apply IH|].
  change (negb (prev =? y) && no_adjacent_dup (y :: compress y s) = true).
  rewrite IH, andb_true_r. by destruct (Z.eqb_spec prev y).
Qed.

Lemma Sanitize_spec_no_adjacent_dup s :
  no_adjacent_dup (Sanitize_spec s) = true.
Proof. destruct s; [done|]. apply compress_no_adjacent_dup. Qed.

Lemma compress_sublist prev s : sublist (compress prev s) s.
Proof.
  revert prev. induction s as [|y s IH]; intros prev; simpl; [constructor|].
  destruct (y =? prev); by constructor.
Qed.

Lemma Sanitize_spec_sublist s : sublist (Sanitize_spec s) s.
Proof.
  destruct s; simpl; [constructor|].
  constructor. apply compress_sublist.
Qed.

Lemma compress_fixed prev s :
  no_adjacent_dup (prev :: s) = true → compress prev s = s.
Proof.
  revert prev. induction s as [|y s IH]; intros prev H; [done|].
  change (negb (prev =? y) && no_adjacent_dup (y :: s) = true) in H.
  apply andb_true_iff in H as [Hne H].
  cbn [compress]. rewrite Z.eqb_sym.
  destruct (prev =? y); [done|]. by rewrite IH.
Qed.

Lemma Sanitize_spec_fixed s :
  no_adjacent_dup s = true → Sanitize_spec s = s.
Proof.
  destruct s as [|x s]; [done|]. intros H. simpl.
  by rewrite compress_fixed.
Qed.

Lemma Sanitize_spec_idempotent s :
  Sanitize_spec (Sanitize_spec s) = Sanitize_spec s.
Proof. apply Sanitize_spec_fixed, Sanitize_spec_no_adjacent_dup. Qed.

(** C10. The backward traversal of [CleanRefString] does not stay inside
    the sequence: on every non-empty input its first iteration reads the
    element at the end position, one past the last element, so the call
    is undefined. *)
Theorem CleanRefString_reads_past_end x v :
  CleanRefString (x :: v) = Undefined.
Proof.
  unfold CleanRefString. cbn [length clean_loop].
  rewrite (deref_past_end (x :: v) (S (length v))) by (simpl; lia).
  done.
Qed.


(** C5. On the input 1, 2, which has no two adjacent equal elements,
    [CleanRefString] does not return the input unchanged: the call is
    undefined. *)
Theorem CleanRefString_sanitized_input_undefined :
  no_adjacent_dup [1; 2] = true
  ∧ CleanRefString [1; 2] = Undefined
  ∧ CleanRefString [1; 2] ≠ Ok [1; 2].
Proof. by vm_compute. Qed.

End Sanitizer.

(** ** Replays on concrete inputs *)

Section Scenarios.

(** C8. With an empty reference string the three replays return 0 faults
    for every value of the two bounds, and so does a replay that follows
    the construction of the object from an empty string. *)
Theorem empty_reference_string_no_faults (num_pages num_frames : Z) :
  FIFOPageReplacement.CalculatePageFaults (Build_AbstractPageReplacement [] num_pages num_frames) = Ok 0
  ∧ LRUPageReplacement.CalculatePageFaults (Build_AbstractPageReplacement [] num_pages num_frames) = Ok 0
  ∧ OPTPageReplacement.CalculatePageFaults (Build_AbstractPageReplacement [] num_pages num_frames) = Ok 0
  ∧ construct [] num_pages num_frames = Ok (Build_AbstractPageReplacement [] num_pages num_frames).
Proof. done. Qed.

(** C3. On the string 1,2,3,1,2,4,1,2,3 with 3 frames FIFO returns 7
    for any number of pages, and the LRU replay is undefined (the fourth
    request is a hit); OPT returns 5 when the number of pages is 3 as
    well, and 3 when the number of pages is 5 or 9. *)
Theorem scenario_fault_counts :
  (∀ num_pages,
     FIFOPageReplacement.CalculatePageFaults
       (Build_AbstractPageReplacement [1; 2; 3; 1; 2; 4; 1; 2; 3] num_pages 3) = Ok 7
     ∧ LRUPageReplacement.CalculatePageFaults
       (Build_AbstractPageReplacement [1; 2; 3; 1; 2; 4; 1; 2; 3] num_pages 3)
       = Undefined)
  ∧ OPTPageReplacement.CalculatePageFaults
      (Build_AbstractPageReplacement [1; 2; 3; 1; 2; 4; 1; 2; 3] 3 3) = Ok 5
  ∧ OPTPageReplacement.CalculatePageFaults
      (Build_AbstractPageReplacement [1; 2; 3; 1; 2; 4; 1; 2; 3] 5 3) = Ok 3
  ∧ OPTPageReplacement.CalculatePageFaults
      (Build_AbstractPageReplacement [1; 2; 3; 1; 2; 4; 1; 2; 3] 9 3) = Ok 3.
Proof. repeat split; by vm_compute. Qed.

(** C1. On the string 1,2,1,2 with 1 page and 2 frames OPT returns 4
    faults while FIFO returns 2; the LRU replay of this string is
    undefined (the third request is a hit). *)
Theorem opt_more_faults_than_fifo_lru :
  OPTPageReplacement.CalculatePageFaults (Build_AbstractPageReplacement [1; 2; 1; 2] 1 2) = Ok 4
  ∧ FIFOPageReplacement.CalculatePageFaults (Build_AbstractPageReplacement [1; 2; 1; 2] 1 2) = Ok 2
  ∧ LRUPageReplacement.CalculatePageFaults (Build_AbstractPageReplacement [1; 2; 1; 2] 1 2) = Undefined.
Proof. repeat split; by vm_compute. Qed.

(** C2. With 5 pages and 2 frames the OPT replay of 1,2 holds the two
    pages 1 and 2 after 2 faults; the next request, for page 3, misses,
    and the step leaves the resident pages and the fault count as they
    are: no page is removed and page 3 is not inserted. *)
Theorem opt_miss_at_capacity_ignored :
  OPTPageReplacement.loop 5 2 [1; 2] ([], 0) = Ok ([1; 2], 2)
  ∧ FindInContainer 3 [1; 2] = false
  ∧ OPTPageReplacement.step 5 2 ([1; 2], 2) 3 [] = Ok ([1; 2], 2)
  ∧ OPTPageReplacement.loop 5 2 [1; 2; 3] ([], 0) = Ok ([1; 2], 2).
Proof. repeat split; by vm_compute. Qed.

End Scenarios.

(** ** The replay loops *)

Section Replay.

Implicit Types (l pre suf mid : list Z) (x y : Z) (st : replay_state).

Lemma FindInContainer_elem_of x l : FindInContainer x l = true ↔ x ∈ l.
Proof.
  induction l as [|y l IH]; simpl.
  - split; [done|]. by intros ?%elem_of_nil.
  - rewrite elem_of_cons, <- IH.
    destruct (Z.eqb_spec y x) as [->|Hne]; [by split; [left|]|].
    split; [by right|]. by intros [->|?].
Qed.

Lemma FindInContainer_not_elem_of x l : FindInContainer x l = false ↔ x ∉ l.
Proof.
  rewrite <- FindInContainer_elem_of. by destruct (FindInContainer x l).
Qed.

Lemma incr_Ok n : n < INT_MAX → incr n = Ok (n + 1).
Proof. intros H. unfold incr. by rewrite (proj2 (Z.ltb_lt _ _) H). Qed.

Lemma size_t_of_int_small n : 0 ≤ n ≤ INT_MAX → size_t_of_int n = n.
Proof.
  intros H. unfold size_t_of_int, INT_MAX in *. apply Z.mod_small. lia.
Qed.

Lemma bind_Ok {A B} (a : A) (f : A → outcome B) : (Ok a ≫= f) = f a.
Proof. reflexivity. Qed.

Lemma replay_app step l1 l2 st :
  replay step (l1 ++ l2) st = (st' ← replay step l1 st; replay step l2 st').
Proof.
  revert st. induction l1 as [|x l1 IH]; intros st; [done|].
  cbn [app replay]. destruct (step st x); try done. cbn. apply IH.
Qed.

Lemma replay_snoc step l x st :
  replay step (l ++ [x]) st = (st' ← replay step l st; step st' x).
Proof.
  rewrite replay_app. destruct (replay step l st) as [st'| | |]; try done.
  cbn. by destruct (step st' x).
Qed.

(** *** The hit branch of LRU *)

Lemma touch_loop_spec x l : ∀ ahead,
  LRUPageReplacement.touch_loop x ahead l
  = if FindInContainer x ahead then Undefined else Ok l.
Proof.
  induction ahead as [|y ahead IH]; [done|].
  cbn [LRUPageReplacement.touch_loop FindInContainer].
  by destruct (y =? x).
Qed.

(** The loop of the hit branch runs on a deque that holds the requested
    page, so it reaches a match and, with it, the invalid iterator. *)
Lemma touch_hit x l : x ∈ l → LRUPageReplacement.touch x l = Undefined.
Proof.
  intros Hin%FindInContainer_elem_of.
  unfold LRUPageReplacement.touch. by rewrite touch_loop_spec, Hin.
Qed.

(** *** Single steps of FIFO and LRU *)

Section Steps.

Variable num_frames : Z.
Hypothesis frames_range : 1 ≤ num_frames ≤ INT_MAX.

Lemma fifo_step_hit l n x :
  x ∈ l → FIFOPageReplacement.step num_frames (l, n) x = Ok (l, n).
Proof.
  intros Hin%FindInContainer_elem_of.
  unfold FIFOPageReplacement.step. by rewrite Hin.
Qed.

Lemma fifo_step_full l n x :
  x ∉ l → Z.of_nat (length l) = num_frames → n < INT_MAX →
  ∃ head rest, l = head :: rest
    ∧ FIFOPageReplacement.step num_frames (l, n) x = Ok (rest ++ [x], n + 1).
Proof.
  intros Hin%FindInContainer_not_elem_of Hlen Hn.
  destruct l as [|head rest]; [simpl in Hlen; lia|].
  exists head, rest. split; [done|].
  unfold FIFOPageReplacement.step. rewrite Hin. cbn [negb].
  rewrite size_t_of_int_small by lia.
  rewrite (proj2 (Z.eqb_eq _ _) Hlen). cbn.
  by rewrite incr_Ok.
Qed.

Lemma fifo_step_room l n x :
  x ∉ l → Z.of_nat (length l) ≠ num_frames → n < INT_MAX →
  FIFOPageReplacement.step num_frames (l, n) x = Ok (l ++ [x], n + 1).
Proof.
  intros Hin%FindInContainer_not_elem_of Hlen Hn.
  unfold FIFOPageReplacement.step. rewrite Hin. cbn [negb].
  rewrite size_t_of_int_small by lia.
  rewrite (proj2 (Z.eqb_neq _ _) Hlen). cbn.
  by rewrite incr_Ok.
Qed.

Lemma lru_step_hit l n x :
  x ∈ l → LRUPageReplacement.step num_frames (l, n) x = Undefined.
Proof.
  intros Hin. unfold LRUPageReplacement.step.
  rewrite (proj2 (FindInContainer_elem_of x l) Hin). cbn [negb].
  by rewrite touch_hit.
Qed.

(** On a miss LRU does what FIFO does. *)
Lemma lru_step_miss l n x :
  x ∉ l →
  LRUPageReplacement.step num_frames (l, n) x
  = FIFOPageReplacement.step num_frames (l, n) x.
Proof.
  intros Hin%FindInContainer_not_elem_of.
  unfold LRUPageReplacement.step, FIFOPageReplacement.step. by rewrite Hin.
Qed.

Lemma lru_step_full l n x :
  x ∉ l → Z.of_nat (length l) = num_frames → n < INT_MAX →
  ∃ head rest, l = head :: rest
    ∧ LRUPageReplacement.step num_frames (l, n) x = Ok (rest ++ [x], n + 1).
Proof.
  intros Hin%FindInContainer_not_elem_of Hlen Hn.
  destruct l as [|head rest]; [simpl in Hlen; lia|].
  exists head, rest. split; [done|].
  unfold LRUPageReplacement.step. rewrite Hin. cbn [negb].
  rewrite size_t_of_int_small by lia.
  rewrite (proj2 (Z.eqb_eq _ _) Hlen). cbn.
  by rewrite incr_Ok.
Qed.

Lemma lru_step_room l n x :
  x ∉ l → Z.of_nat (length l) ≠ num_frames → n < INT_MAX →
  LRUPageReplacement.step num_frames (l, n) x = Ok (l ++ [x], n + 1).
Proof.
  intros Hin%FindInContainer_not_elem_of Hlen Hn.
  unfold LRUPageReplacement.step. rewrite Hin. cbn [negb].
  rewrite size_t_of_int_small by lia.
  rewrite (proj2 (Z.eqb_neq _ _) Hlen). cbn.
  by rewrite incr_Ok.
Qed.

End Steps.

(** *** Recency *)

Lemma age_latest hist x : age (x :: hist) x = O.
Proof. simpl. by rewrite Z.eqb_refl. Qed.

Lemma age_older hist x y : x ≠ y → age (x :: hist) y = S (age hist y).
Proof. intros H. simpl. by destruct (Z.eqb_spec x y). Qed.

Lemma recency_ordered_older hist l x :
  x ∉ l → recency_ordered hist l → recency_ordered (x :: hist) l.
Proof.
  unfold recency_ordered. induction l as [|a l IH]; intros Hx Hl.
  - constructor.
  - apply not_elem_of_cons in Hx as [Hxa Hx].
    apply StronglySorted_cons in Hl as [Ha Hl].
    apply StronglySorted_cons. split; [|by apply IH].
    rewrite Forall_forall in *. intros b Hb.
    rewrite !age_older; [|done|by intros ->].
    specialize (Ha b Hb). lia.
Qed.

(** The requested page goes to the tail as the most recent one. *)
Lemma recency_ordered_push hist l x :
  x ∉ l → recency_ordered hist l → recency_ordered (x :: hist) (l ++ [x]).
Proof.
  intros Hx Hl. apply StronglySorted_app_2.
  - intros a b Ha ->%list_elem_of_singleton.
    rewrite age_latest, age_older; [lia|]. by intros ->.
  - by apply recency_ordered_older.
  - repeat constructor.
Qed.

(** *** Distinct pages *)

Lemma distinct_pages_snoc_old (done : list Z) x :
  x ∈ done → distinct_pages (done ++ [x]) = distinct_pages done.
Proof.
  intros Hx. unfold distinct_pages. rewrite list_to_set_snoc_L.
  f_equal. f_equal.
  assert (x ∈ (list_to_set done : gset Z)) by (by apply elem_of_list_to_set).
  apply set_eq. intros y. rewrite elem_of_union, elem_of_singleton.
  split; [by intros [?| ->]|by left].
Qed.

Lemma distinct_pages_snoc_le (done : list Z) x :
  distinct_pages (done ++ [x]) ≤ distinct_pages done + 1.
Proof.
  unfold distinct_pages. rewrite list_to_set_snoc_L, size_union_alt.
  assert (size ({[x]} ∖ list_to_set done : gset Z) ≤ 1)%nat; [|lia].
  rewrite <- (size_singleton (C:=gset Z) x).
  apply subseteq_size. by intros y [Hy _]%elem_of_difference.
Qed.

(** A deque without repeated pages that holds requested pages only holds
    at most as many pages as there are distinct requests. *)
Lemma length_le_distinct_pages (l done : list Z) :
  NoDup l → (∀ y, y ∈ l → y ∈ done) →
  Z.of_nat (length l) ≤ distinct_pages done.
Proof.
  intros Hnd Hsub. unfold distinct_pages.
  rewrite <- (size_list_to_set (C:=gset Z) l Hnd).
  apply inj_le, subseteq_size. intros y Hy%elem_of_list_to_set.
  by apply elem_of_list_to_set, Hsub.
Qed.

(** *** States reached by the replays *)

(** Every FIFO replay with at least one frame returns; its deque holds
    no page twice and never more than [num_frames] pages. *)
Lemma fifo_replay_inv num_frames done :
  1 ≤ num_frames ≤ INT_MAX →
  Z.of_nat (length done) ≤ INT_MAX →
  ∃ l n, replay (FIFOPageReplacement.step num_frames) done ([], 0) = Ok (l, n)
    ∧ NoDup l ∧ (∀ y, y ∈ l → y ∈ done)
    ∧ Z.of_nat (length l) ≤ num_frames
    ∧ distinct_pages done ≤ n ≤ Z.of_nat (length done).
Proof.
  intros Hc. induction done as [|x done IH] using rev_ind; intros Hlen.
  - exists [], 0. split_and!; [done|constructor| |simpl; lia|done|done].
    by intros y ?%elem_of_nil.
  - rewrite length_app in Hlen |- *; cbn [length] in Hlen |- *.
    destruct IH as (l & n & Hrun & Hnd & Hsub & Hcap & Hn); [lia|].
    rewrite replay_snoc, Hrun, bind_Ok.
    pose proof (distinct_pages_snoc_le done x) as Hdist.
    assert (∀ l0, (∀ y, y ∈ l0 → y ∈ l) → ∀ y, y ∈ l0 ++ [x] → y ∈ done ++ [x])
      as Hsub'.
    { intros l0 Hl0 y [Hy|Hy]%elem_of_app; apply elem_of_app; auto. }
    assert (∀ l0, NoDup l0 → x ∉ l0 → NoDup (l0 ++ [x])) as Hnd'.
    { intros l0 H0 Hx. apply NoDup_app. split_and!; [done| |apply NoDup_singleton].
      by intros y Hy ->%list_elem_of_singleton. }
    destruct (decide (x ∈ l)) as [Hin|Hnin].
    { rewrite fifo_step_hit by done. exists l, n.
      rewrite distinct_pages_snoc_old by auto.
      split_and!; [done|done| |lia..].
      intros y Hy. apply elem_of_app. auto. }
    destruct (decide (Z.of_nat (length l) = num_frames)) as [Hfull|Hroom].
    + destruct (fifo_step_full num_frames Hc l n x) as (h & t & -> & ->);
        [done|done|lia|].
      exists (t ++ [x]), (n + 1).
      apply NoDup_cons in Hnd as [_ Hnd].
      apply not_elem_of_cons in Hnin as [_ Hnin].
      rewrite length_app. cbn [length] in *.
      split_and!; [done| | |lia..].
      * by apply Hnd'.
      * apply Hsub'. intros y Hy. by right.
    + rewrite (fifo_step_room num_frames Hc) by (done || lia).
      exists (l ++ [x]), (n + 1). rewrite length_app. cbn [length].
      split_and!; [done| | |lia..].
      * by apply Hnd'.
      * by apply Hsub'.
Qed.

(** A step of LRU that returns was a miss. *)
Lemma lru_step_Ok_inv num_frames l n x l' n' :
  LRUPageReplacement.step num_frames (l, n) x = Ok (l', n') →
  (x ∉ l) ∧ n < INT_MAX ∧ n' = n + 1
  ∧ ((Z.of_nat (length l) = size_t_of_int num_frames
      ∧ ∃ head rest, l = head :: rest ∧ l' = rest ++ [x])
     ∨ (Z.of_nat (length l) ≠ size_t_of_int num_frames ∧ l' = l ++ [x])).
Proof.
  intros Hstep. destruct (decide (x ∈ l)) as [Hin|Hnin].
  { by rewrite lru_step_hit in Hstep. }
  split; [done|]. unfold LRUPageReplacement.step in Hstep.
  rewrite (proj2 (FindInContainer_not_elem_of x l) Hnin) in Hstep.
  cbn [negb] in Hstep. unfold incr in Hstep.
  destruct (Z.eqb_spec (Z.of_nat (length l)) (size_t_of_int num_frames))
    as [Hfull|Hroom].
  - destruct l as [|head rest]; [done|]. cbn [pop_front] in Hstep.
    rewrite bind_Ok in Hstep.
    destruct (Z.ltb_spec n INT_MAX); [|done]. rewrite bind_Ok in Hstep.
    simplify_eq. split_and!; [done..|]. left. split; [done|]. by eexists _, _.
  - rewrite bind_Ok in Hstep.
    destruct (Z.ltb_spec n INT_MAX); [|done]. rewrite bind_Ok in Hstep.
    simplify_eq. split_and!; [done..|]. by right.
Qed.

(** An LRU replay that returns has met no hit: every request was counted
    as a fault.  Its deque holds no page twice, never more than
    [num_frames] pages, only requested pages, and lists them from the
    least to the most recently requested. *)
Lemma lru_replay_inv num_frames done :
  1 ≤ num_frames ≤ INT_MAX →
  ∀ l n,
  replay (LRUPageReplacement.step num_frames) done ([], 0) = Ok (l, n) →
  NoDup l ∧ recency_ordered (reverse done) l
  ∧ (∀ y, y ∈ l → y ∈ done)
  ∧ Z.of_nat (length l) ≤ num_frames
  ∧ n = Z.of_nat (length done).
Proof.
  intros Hc. induction done as [|x done IH] using rev_ind; intros l n Hrun.
  - cbn in Hrun. simplify_eq.
    split_and!; [constructor|constructor| |simpl; lia|done].
    by intros y ?%elem_of_nil.
  - rewrite replay_snoc in Hrun.
    destruct (replay (LRUPageReplacement.step num_frames) done ([], 0))
      as [[l0 n0]| | |]; try done.
    rewrite bind_Ok in Hrun.
    destruct (IH l0 n0 eq_refl) as (Hnd & Hrec & Hsub & Hcap & Hn).
    apply lru_step_Ok_inv in Hrun as (Hnin & _ & -> & Hcase).
    rewrite size_t_of_int_small in Hcase by lia.
    rewrite reverse_snoc, length_app. cbn [length].
    assert (∀ l1, (∀ y, y ∈ l1 → y ∈ l0) → ∀ y, y ∈ l1 ++ [x] → y ∈ done ++ [x])
      as Hsub'.
    { intros l1 Hl1 y [Hy|Hy]%elem_of_app; apply elem_of_app; auto. }
    assert (∀ l1, NoDup l1 → x ∉ l1 → NoDup (l1 ++ [x])) as Hnd'.
    { intros l1 H1 Hx. apply NoDup_app. split_and!; [done| |apply NoDup_singleton].
      by intros y Hy ->%list_elem_of_singleton. }
    destruct Hcase as [[Hfull (h & t & -> & ->)]|[Hroom ->]].
    + apply NoDup_cons in Hnd as [_ Hnd].
      apply not_elem_of_cons in Hnin as [_ Hnin].
      rewrite length_app. cbn [length] in *.
      split_and!; [| | |lia..].
      * by apply Hnd'.
      * apply recency_ordered_push; [done|].
        by apply StronglySorted_cons in Hrec as [_ Hrec].
      * apply Hsub'. intros y Hy. by right.
    + rewrite length_app. cbn [length].
      split_and!; [| | |lia..].
      * by apply Hnd'.
      * by apply recency_ordered_push.
      * by apply Hsub'.
Qed.

(** In a state that an LRU replay has reached, a request for an absent
    page with [num_frames] pages resident removes the head, appends the
    requested page at the tail and counts one fault; the head removed is
    the resident page whose latest request is the oldest. *)
Lemma lru_miss_evicts_oldest num_frames done l n x :
  1 ≤ num_frames ≤ INT_MAX →
  Z.of_nat (length done) < INT_MAX →
  replay (LRUPageReplacement.step num_frames) done ([], 0) = Ok (l, n) →
  x ∉ l → Z.of_nat (length l) = num_frames →
  ∃ head rest, l = head :: rest
    ∧ LRUPageReplacement.step num_frames (l, n) x = Ok (rest ++ [x], n + 1)
    ∧ head ∈ done
    ∧ Forall (λ y, y ∈ done
                   ∧ (age (reverse done) y < age (reverse done) head)%nat)
        rest.
Proof.
  intros Hc Hlen Hrun Hnin Hfull.
  destruct (lru_replay_inv num_frames done Hc l n Hrun)
    as (Hnd & Hrec & Hsub & Hcap & Hn).
  destruct (lru_step_full num_frames Hc l n x) as (h & t & -> & Hstep);
    [done|done|lia|].
  exists h, t. split_and!; [done|done| |].
  - apply Hsub. by left.
  - apply StronglySorted_cons in Hrec as [Hh _].
    rewrite Forall_forall in *. intros y Hy. split; [|by apply Hh].
    apply Hsub. by right.
Qed.

(** C9. In the state an LRU replay has reached after the requests [done],
    a request for a resident page does not move that page to the tail of
    the deque: the hit branch appends a copy of the page and then erases
    through the iterator that the append has invalidated, so the step is
    undefined, and so is the replay of every reference string that goes
    on with this request after [done]. *)
Theorem lru_hit_undefined num_pages num_frames done rest l n x :
  replay (LRUPageReplacement.step num_frames) done ([], 0) = Ok (l, n) →
  x ∈ l →
  LRUPageReplacement.step num_frames (l, n) x = Undefined
  ∧ LRUPageReplacement.CalculatePageFaults
      (Build_AbstractPageReplacement (done ++ x :: rest) num_pages num_frames)
    = Undefined.
Proof.
  intros Hrun Hin. split; [by apply lru_step_hit|].
  unfold LRUPageReplacement.CalculatePageFaults.
  cbn [ref_string_ num_frames_].
  rewrite replay_app, Hrun, bind_Ok. cbn [replay].
  by rewrite lru_step_hit.
Qed.

Lemma lru_hit_undefined_witness :
  LRUPageReplacement.step 3 ([1; 2; 3], 3) 2 = Undefined
  ∧ LRUPageReplacement.CalculatePageFaults
      (Build_AbstractPageReplacement ([1; 2; 3] ++ 2 :: [4]) 9 3)
    = Undefined.
Proof.
  apply (lru_hit_undefined 9 3 [1; 2; 3] [4] [1; 2; 3] 3 2).
  - vm_compute. reflexivity.
  - by apply (bool_decide_unpack _); vm_compute.
Defined.

(** *** OPT *)

(** Whenever the number of pages differs from the number of frames, a
    request that misses with [num_frames] pages resident is dropped: the
    eviction branch tests the size against [num_pages] and the insertion
    branch needs a size other than [num_frames]. *)
Lemma opt_step_full_ignored num_pages num_frames l n x rest :
  0 ≤ num_frames ≤ INT_MAX →
  size_t_of_int num_pages ≠ num_frames →
  Z.of_nat (length l) = num_frames →
  OPTPageReplacement.step num_pages num_frames (l, n) x rest = Ok (l, n).
Proof.
  intros Hc Hp Hlen. unfold OPTPageReplacement.step.
  rewrite (size_t_of_int_small num_frames) by done.
  rewrite (proj2 (Z.eqb_neq _ _)) by lia.
  by rewrite (proj2 (Z.eqb_eq _ _) Hlen).
Qed.

(** A deque without repeated pages that holds [num_pages] page ids below
    [num_pages] holds every such id. *)
Lemma all_pages_resident num_pages l x :
  NoDup l → (∀ y, y ∈ l → 0 ≤ y < num_pages) →
  Z.of_nat (length l) = num_pages → 0 ≤ x < num_pages → x ∈ l.
Proof.
  intros Hnd Hrange Hlen Hx.
  assert (l ≡ₚ seqZ 0 num_pages) as ->.
  { apply submseteq_length_Permutation.
    - apply NoDup_submseteq; [done|]. intros y Hy.
      apply elem_of_seqZ. specialize (Hrange y Hy). lia.
    - rewrite length_seqZ. lia. }
  apply elem_of_seqZ. lia.
Qed.

(** On page ids below [num_pages] the eviction branch is never taken: a
    step inserts the requested page when it misses and the size differs
    from [num_frames], and does nothing otherwise. *)
Lemma opt_step_in_range num_pages num_frames l n x rest :
  0 ≤ num_pages ≤ INT_MAX → 0 ≤ num_frames ≤ INT_MAX →
  NoDup l → (∀ y, y ∈ l → 0 ≤ y < num_pages) → 0 ≤ x < num_pages →
  n < INT_MAX →
  OPTPageReplacement.step num_pages num_frames (l, n) x rest
  = if negb (Z.of_nat (length l) =? num_frames) && negb (FindInContainer x l)
    then Ok (l ++ [x], n + 1) else Ok (l, n).
Proof.
  intros Hp Hc Hnd Hrange Hx Hn. unfold OPTPageReplacement.step.
  rewrite !size_t_of_int_small by done.
  destruct (FindInContainer x l) eqn:Hfind.
  { by rewrite !andb_false_r. }
  apply FindInContainer_not_elem_of in Hfind.
  destruct (Z.eqb_spec (Z.of_nat (length l)) num_pages) as [Hfull|_].
  { destruct Hfind. by eapply all_pages_resident. }
  cbn [andb negb]. destruct (Z.of_nat (length l) =? num_frames); [done|].
  cbn [negb andb]. by rewrite incr_Ok.
Qed.

Lemma opt_loop_in_range num_pages num_frames : ∀ s l n,
  0 ≤ num_pages ≤ INT_MAX → 0 ≤ num_frames ≤ INT_MAX →
  NoDup l → (∀ y, y ∈ l → 0 ≤ y < num_pages) →
  Forall (λ x, 0 ≤ x < num_pages) s →
  n + Z.of_nat (length s) ≤ INT_MAX →
  ∃ l' n', OPTPageReplacement.loop num_pages num_frames s (l, n) = Ok (l', n')
    ∧ NoDup l' ∧ (∀ y, y ∈ l' → y ∈ l ∨ y ∈ s)
    ∧ n' - Z.of_nat (length l') = n - Z.of_nat (length l).
Proof.
  induction s as [|x s IH]; intros l n Hp Hc Hnd Hrange Hs Hn.
  - exists l, n. split_and!; [done|done| |done]. by left.
  - apply Forall_cons in Hs as [Hx Hs]. cbn [length] in Hn.
    cbn [OPTPageReplacement.loop].
    rewrite opt_step_in_range by (done || lia).
    destruct (negb (Z.of_nat (length l) =? num_frames)
              && negb (FindInContainer x l)) eqn:Hcase; rewrite bind_Ok.
    + apply andb_true_iff in Hcase as [_ Hfind].
      apply negb_true_iff, FindInContainer_not_elem_of in Hfind.
      destruct (IH (l ++ [x]) (n + 1)) as (l' & n' & -> & Hnd' & Hsub & Hcnt);
        [done|done| | |done|lia|].
      * apply NoDup_app. split_and!; [done| |apply NoDup_singleton].
        by intros y Hy ->%list_elem_of_singleton.
      * intros y [Hy| ->%list_elem_of_singleton]%elem_of_app; auto.
      * exists l', n'. split_and!; [done|done| |].
        -- intros y Hy. destruct (Hsub y Hy) as [[?| ->%list_elem_of_singleton]%elem_of_app|?].
           ++ by left.
           ++ right. by left.
           ++ right. by right.
        -- rewrite length_app in Hcnt. cbn [length] in Hcnt. lia.
    + destruct (IH l n) as (l' & n' & -> & Hnd' & Hsub & Hcnt);
        [done..|lia|].
      exists l', n'. split_and!; [done|done| |done].
      intros y Hy. destruct (Hsub y Hy); [by left|right; by right].
Qed.

(** On reference strings whose page ids all lie below [num_pages], with at
    least one frame, OPT counts at most as many faults as there are
    distinct pages, and FIFO counts at least that many. *)
Lemma opt_le_fifo_in_range s num_pages num_frames :
  0 ≤ num_pages ≤ INT_MAX → 1 ≤ num_frames ≤ INT_MAX →
  Forall (λ x, 0 ≤ x < num_pages) s →
  Z.of_nat (length s) ≤ INT_MAX →
  ∃ n_opt n_fifo,
    OPTPageReplacement.CalculatePageFaults
      (Build_AbstractPageReplacement s num_pages num_frames) = Ok n_opt
    ∧ FIFOPageReplacement.CalculatePageFaults
        (Build_AbstractPageReplacement s num_pages num_frames) = Ok n_fifo
    ∧ n_opt ≤ distinct_pages s ∧ distinct_pages s ≤ n_fifo.
Proof.
  intros Hp Hc Hs Hlen.
  destruct (opt_loop_in_range num_pages num_frames s [] 0)
    as (lo & no & Hopt & Hndo & Hsubo & Hcnt);
    [done|lia|constructor|by intros y ?%elem_of_nil|done|lia|].
  destruct (fifo_replay_inv num_frames s Hc Hlen)
    as (lf & nf & Hfifo & _ & _ & _ & Hnf).
  exists no, nf.
  unfold OPTPageReplacement.CalculatePageFaults,
    FIFOPageReplacement.CalculatePageFaults.
  cbn [ref_string_ num_pages_ num_frames_].
  rewrite Hopt, Hfifo, !bind_Ok. split_and!; [done..| |lia].
  cbn [length] in Hcnt.
  assert (Z.of_nat (length lo) ≤ distinct_pages s); [|lia].
  apply length_le_distinct_pages; [done|].
  intros y Hy. by destruct (Hsubo y Hy) as [?%elem_of_nil|?].
Qed.

End Replay.

(** ** The generator *)

Section Generator.

Variable rand : nat → Z.

Implicit Types (v : list Z) (i k fuel : nat) (upper_bound : Z).

Lemma draw_Ok upper_bound k :
  upper_bound ≠ 0 →
  draw rand upper_bound k = Ok (Z.rem (rand k) upper_bound, S k).
Proof. intros H. unfold draw. by destruct (Z.eqb_spec upper_bound 0). Qed.

Lemma assign_Ok v i x : (i < length v)%nat → assign v i x = Ok (<[i:=x]> v).
Proof. intros H. unfold assign. by rewrite (proj2 (Nat.ltb_lt _ _) H). Qed.

(** *** A negative bound acts as its absolute value *)

Lemma draw_opp upper_bound k :
  draw rand (- upper_bound) k = draw rand upper_bound k.
Proof.
  unfold draw. rewrite Z.rem_opp_r'.
  by destruct (Z.eqb_spec upper_bound 0), (Z.eqb_spec (- upper_bound) 0); try lia.
Qed.

Lemma redraw_loop_opp upper_bound i fuel : ∀ st,
  redraw_loop fuel rand (- upper_bound) i st
  = redraw_loop fuel rand upper_bound i st.
Proof.
  induction fuel as [|fuel IH]; intros [v k]; [done|].
  cbn [redraw_loop]. rewrite draw_opp.
  destruct (deref v i) as [a| | |]; try done.
  destruct (deref v (i - 1)) as [b| | |]; try done.
  rewrite !bind_Ok. destruct (a =? b); [|done].
  destruct (draw rand upper_bound k) as [[r k']| | |]; try done.
  rewrite !bind_Ok. destruct (assign v i r); try done.
  rewrite !bind_Ok. apply IH.
Qed.

Lemma fill_loop_opp upper_bound fuel n : ∀ i st,
  fill_loop fuel rand (- upper_bound) n i st
  = fill_loop fuel rand upper_bound n i st.
Proof.
  induction n as [|n IH]; intros i [v k]; [done|].
  cbn [fill_loop]. rewrite draw_opp.
  destruct (draw rand upper_bound k) as [[r k']| | |]; try done.
  rewrite !bind_Ok. destruct (assign v i r) as [v'| | |]; try done.
  rewrite !bind_Ok, redraw_loop_opp.
  destruct (redraw_loop fuel rand upper_bound i (v', k')); try done.
  rewrite !bind_Ok. apply IH.
Qed.

Lemma GenerateRefString_opp fuel size upper_bound :
  GenerateRefString fuel rand size (- upper_bound)
  = GenerateRefString fuel rand size upper_bound.
Proof.
  unfold GenerateRefString. rewrite draw_opp.
  destruct (size <? 0), (size =? 0); try done.
  destruct (draw rand upper_bound 0) as [[r k]| | |]; try done.
  rewrite !bind_Ok. destruct (assign _ 0 r); try done.
  rewrite !bind_Ok. by rewrite fill_loop_opp.
Qed.

(** *** Draws that stay on one value *)

Lemma redraw_loop_stuck upper_bound r i fuel : ∀ v k,
  upper_bound ≠ 0 → (∀ k, Z.rem (rand k) upper_bound = r) →
  v !! i = Some r → v !! (i - 1)%nat = Some r →
  redraw_loop fuel rand upper_bound i (v, k) = OutOfFuel.
Proof.
  induction fuel as [|fuel IH]; intros v k Hb Hr Hi Hp; [done|].
  cbn [redraw_loop].
  rewrite (deref_Ok _ _ _ Hi), (deref_Ok _ _ _ Hp), !bind_Ok.
  rewrite Z.eqb_refl, draw_Ok by done. rewrite Hr, !bind_Ok.
  rewrite assign_Ok by (by eapply lookup_lt_Some).
  rewrite bind_Ok, list_insert_id by done. by apply IH.
Qed.

(** When every draw gives the same value, the second element can never
    differ from the first and no amount of fuel is enough. *)
Lemma GenerateRefString_constant_draws_diverge fuel size upper_bound r :
  upper_bound ≠ 0 → (∀ k, Z.rem (rand k) upper_bound = r) → 1 < size →
  GenerateRefString fuel rand size upper_bound = OutOfFuel.
Proof.
  intros Hb Hr Hsize. unfold GenerateRefString.
  destruct (Z.ltb_spec size 0); [lia|].
  destruct (Z.eqb_spec size 0); [lia|].
  rewrite draw_Ok by done. rewrite Hr, !bind_Ok.
  destruct (Z.to_nat size) as [|[|m]] eqn:Hm; [lia|lia|].
  destruct (Z.to_nat (size - 1)) as [|n'] eqn:Hn; [lia|].
  cbn [replicate assign length Nat.ltb Nat.leb]. rewrite bind_Ok.
  cbn [fill_loop insert list_insert].
  rewrite draw_Ok by done. rewrite Hr, !bind_Ok.
  cbn [assign length Nat.ltb Nat.leb]. rewrite bind_Ok.
  cbn [insert list_insert].
  by rewrite (redraw_loop_stuck upper_bound r).
Qed.

Lemma GenerateRefString_bound_1_diverges fuel size :
  1 < size → GenerateRefString fuel rand size 1 = OutOfFuel.
Proof.
  apply (GenerateRefString_constant_draws_diverge fuel size 1 0); [done|].
  intros k. apply Z.rem_1_r.
Qed.

Lemma GenerateRefString_bound_1_single fuel :
  GenerateRefString fuel rand 1 1 = Ok [0].
Proof.
  unfold GenerateRefString. cbn. unfold draw. cbn. by rewrite Z.rem_1_r.
Qed.

(** More fuel does not change the result of a loop that finished. *)
Lemma redraw_loop_fuel_mono upper_bound i fuel : ∀ fuel' st res,
  redraw_loop fuel rand upper_bound i st = Ok res → (fuel ≤ fuel')%nat →
  redraw_loop fuel' rand upper_bound i st = Ok res.
Proof.
  induction fuel as [|fuel IH]; intros fuel' [v k] res Hrun Hle; [done|].
  destruct fuel' as [|fuel']; [lia|]. cbn [redraw_loop] in *.
  destruct (deref v i) as [a| | |]; try done.
  destruct (deref v (i - 1)) as [b| | |]; try done.
  rewrite !bind_Ok in *. destruct (a =? b); [|done].
  destruct (draw rand upper_bound k) as [[r k']| | |]; try done.
  rewrite !bind_Ok in *. destruct (assign v i r) as [v'| | |]; try done.
  rewrite !bind_Ok in *. apply IH; [done|lia].
Qed.

(** *** Bounds above 1 *)

Lemma no_adjacent_dup_snoc (l : list Z) r :
  no_adjacent_dup l = true → last l ≠ Some r →
  no_adjacent_dup (l ++ [r]) = true.
Proof.
  induction l as [|a l IH]; [done|].
  destruct l as [|b l].
  - intros _ Hlast. simpl. rewrite andb_true_r.
    destruct (Z.eqb_spec a r) as [->|]; [by destruct Hlast|done].
  - intros Hl Hlast.
    change (negb (a =? b) && no_adjacent_dup (b :: l) = true) in Hl.
    apply andb_true_iff in Hl as [Hab Hl].
    change (negb (a =? b) && no_adjacent_dup ((b :: l) ++ [r]) = true).
    rewrite Hab. by apply IH.
Qed.

Section Fair.

Variable upper_bound : Z.
Hypothesis bound_above_1 : 1 < upper_bound.
Hypothesis rand_nonneg : ∀ k, 0 ≤ rand k.
(** The draws do not stay on one value for ever. *)
Hypothesis rand_fair :
  ∀ k p, ∃ m, (k ≤ m)%nat ∧ Z.rem (rand m) upper_bound ≠ p.

Lemma drawn_in_range k : 0 ≤ Z.rem (rand k) upper_bound < upper_bound.
Proof. apply Z.rem_bound_pos; [done|lia]. Qed.

(** The redraw loop ends once a value other than the previous element
    [b] comes up: [d] counts the draws needed. *)
Lemma redraw_loop_terminates i b : ∀ d k v a fuel,
  (1 ≤ i)%nat → v !! i = Some a → v !! (i - 1)%nat = Some b →
  0 ≤ a < upper_bound →
  match d with
  | O => a
  | S d' => Z.rem (rand (k + d')) upper_bound
  end ≠ b →
  (d + 1 ≤ fuel)%nat →
  ∃ r k', redraw_loop fuel rand upper_bound i (v, k) = Ok (<[i:=r]> v, k')
          ∧ r ≠ b ∧ 0 ≤ r < upper_bound.
Proof.
  induction d as [|d IH]; intros k v a fuel Hi Ha Hb Hrange Hd Hfuel;
    (destruct fuel as [|fuel]; [lia|]); cbn [redraw_loop];
    rewrite (deref_Ok _ _ _ Ha), (deref_Ok _ _ _ Hb), !bind_Ok.
  - destruct (Z.eqb_spec a b) as [->|Hne]; [done|].
    exists a, k. by rewrite list_insert_id.
  - destruct (Z.eqb_spec a b) as [->|Hne].
    + rewrite draw_Ok by lia. rewrite !bind_Ok.
      pose proof (lookup_lt_Some _ _ _ Ha) as Hlt.
      rewrite assign_Ok by done. rewrite bind_Ok.
      destruct (IH (S k) (<[i:=Z.rem (rand k) upper_bound]> v)
                  (Z.rem (rand k) upper_bound) fuel)
        as (r & k' & Hrun & Hr); [done| | | | |lia|].
      * by rewrite list_lookup_insert_eq.
      * rewrite list_lookup_insert_ne by lia. done.
      * apply drawn_in_range.
      * destruct d as [|d].
        -- by rewrite Nat.add_0_r in Hd.
        -- by replace (S k + d)%nat with (k + S d)%nat by lia.
      * exists r, k'. by rewrite list_insert_insert_eq in Hrun.
    + exists a, k. by rewrite list_insert_id.
Qed.

Lemma fill_loop_terminates : ∀ n i v k,
  (1 ≤ i)%nat → (i + n = length v)%nat →
  Forall (λ x, 0 ≤ x < upper_bound) (take i v) →
  no_adjacent_dup (take i v) = true →
  ∃ F, ∀ fuel, (F ≤ fuel)%nat →
    ∃ v' k', fill_loop fuel rand upper_bound n i (v, k) = Ok (v', k')
             ∧ length v' = length v
             ∧ Forall (λ x, 0 ≤ x < upper_bound) v'
             ∧ no_adjacent_dup v' = true.
Proof.
  induction n as [|n IH]; intros i v k Hi Hlen Hrange Hadj.
  - exists O. intros fuel _. exists v, k.
    rewrite take_ge in Hrange, Hadj by lia. done.
  - destruct (lookup_lt_is_Some_2 v (i - 1)) as [b Hb]; [lia|].
    destruct (rand_fair (S k) b) as (m & Hm & Hmb).
    set (r0 := Z.rem (rand k) upper_bound).
    assert (∀ r, r ≠ b → 0 ≤ r < upper_bound →
              Forall (λ x, 0 ≤ x < upper_bound) (take (S i) (<[i:=r]> v))
              ∧ no_adjacent_dup (take (S i) (<[i:=r]> v)) = true)
      as Hnext.
    { intros r Hr Hrr.
      rewrite (take_S_r _ _ r) by (apply list_lookup_insert_eq; lia).
      rewrite take_insert_ge by lia. split.
      - apply Forall_app. split; [done|]. constructor; [done|constructor].
      - apply no_adjacent_dup_snoc; [done|].
        rewrite last_lookup, length_take_le by lia.
        rewrite lookup_take_lt by lia.
        replace (pred i) with (i - 1)%nat by lia. rewrite Hb. congruence. }
    assert (∃ F1, ∀ fuel, (F1 ≤ fuel)%nat →
              ∃ r k', redraw_loop fuel rand upper_bound i (<[i:=r0]> v, S k)
                      = Ok (<[i:=r]> v, k')
                      ∧ r ≠ b ∧ 0 ≤ r < upper_bound) as [F1 HF1].
    { exists (S (m - S k) + 1)%nat. intros fuel Hfuel.
      destruct (redraw_loop_terminates i b (S (m - S k)) (S k)
                  (<[i:=r0]> v) r0 fuel)
        as (r & k' & Hrun & Hr); [done| | | | |done|].
      - apply list_lookup_insert_eq. lia.
      - rewrite list_lookup_insert_ne by lia. done.
      - apply drawn_in_range.
      - by replace (S k + (m - S k))%nat with m by lia.
      - exists r, k'. by rewrite list_insert_insert_eq in Hrun. }
    assert (∀ r k', r ≠ b → 0 ≤ r < upper_bound →
              ∃ F2, ∀ fuel, (F2 ≤ fuel)%nat →
                ∃ v' k'', fill_loop fuel rand upper_bound n (S i)
                             (<[i:=r]> v, k') = Ok (v', k'')
                  ∧ length v' = length v
                  ∧ Forall (λ x, 0 ≤ x < upper_bound) v'
                  ∧ no_adjacent_dup v' = true) as HF2.
    { intros r k' Hr Hrr. destruct (Hnext r Hr Hrr) as [H1 H2].
      destruct (IH (S i) (<[i:=r]> v) k') as [F2 HF2];
        [lia|rewrite length_insert; lia|done..|].
      exists F2. intros fuel Hfuel.
      destruct (HF2 fuel Hfuel) as (v' & k'' & ? & Hl & ?).
      rewrite length_insert in Hl. by exists v', k''. }
    destruct (HF1 F1 (le_n _)) as (r & k' & Hrun & Hr & Hrr).
    destruct (HF2 r k' Hr Hrr) as [F2 HF2'].
    exists (max F1 F2). intros fuel Hfuel.
    cbn [fill_loop]. rewrite draw_Ok by lia. rewrite !bind_Ok.
    rewrite assign_Ok by lia. rewrite bind_Ok. fold r0.
    rewrite (redraw_loop_fuel_mono _ _ _ _ _ _ Hrun) by lia.
    rewrite bind_Ok. apply HF2'. lia.
Qed.

End Fair.

End Generator.

(** The sequence 0, 1, 2, ... taken modulo 2 never stays on one value. *)
Lemma counter_rand_fair :
  ∀ (k : nat) (p : Z), ∃ m, (k ≤ m)%nat ∧ Z.rem (Z.of_nat m) 2 ≠ p.
Proof.
  intros k p. destruct (decide (Z.rem (Z.of_nat k) 2 = p)) as [Hp|Hp].
  - exists (S k). split; [lia|]. rewrite <- Hp.
    rewrite !Z.rem_mod_nonneg by lia.
    rewrite Nat2Z.inj_succ. unfold Z.succ.
    rewrite <- Z.add_mod_idemp_l by done.
    pose proof (Z.mod_pos_bound (Z.of_nat k) 2 eq_refl) as Hk.
    destruct (decide (Z.of_nat k mod 2 = 0)) as [->|Hne]; [done|].
    replace (Z.of_nat k mod 2) with 1 by lia. done.
  - by exists k.
Qed.

(** C7. Provided the values of [rand()] are non-negative and, taken modulo
    [upper_bound], do not stay on one value for ever, a call with a
    positive [size] and an [upper_bound] above 1 returns, given enough
    fuel, a sequence of length [size] whose elements lie in
    [0, upper_bound) and in which no two adjacent elements are equal; a
    call with [size] 0 returns the empty sequence for every bound. *)
Theorem GenerateRefString_spec (rand : nat → Z) (size upper_bound : Z) :
  (∀ k, 0 ≤ rand k) →
  (∀ k p, ∃ m, (k ≤ m)%nat ∧ Z.rem (rand m) upper_bound ≠ p) →
  0 < size → 1 < upper_bound →
  (∃ F, ∀ fuel, (F ≤ fuel)%nat →
     ∃ v, GenerateRefString fuel rand size upper_bound = Ok v
          ∧ Z.of_nat (length v) = size
          ∧ Forall (λ x, 0 ≤ x < upper_bound) v
          ∧ no_adjacent_dup v = true)
  ∧ (∀ fuel bound, GenerateRefString fuel rand 0 bound = Ok []).
Proof.
  intros Hnonneg Hfair Hsize Hbound. split; [|done].
  destruct (Z.to_nat size) as [|n] eqn:Hn; [lia|].
  set (r0 := Z.rem (rand 0%nat) upper_bound).
  destruct (fill_loop_terminates rand upper_bound Hbound Hnonneg Hfair
              n 1%nat (r0 :: replicate n 0) 1%nat) as [F HF].
  - done.
  - simpl. by rewrite length_replicate.
  - change (Forall (λ x, 0 ≤ x < upper_bound) [r0]).
    constructor; [|constructor]. by apply drawn_in_range.
  - done.
  - exists F. intros fuel Hfuel.
    destruct (HF fuel Hfuel) as (v & k & Hrun & Hlen & Hrange & Hadj).
    exists v. unfold GenerateRefString.
    destruct (Z.ltb_spec size 0); [lia|].
    destruct (Z.eqb_spec size 0); [lia|].
    rewrite draw_Ok by lia. rewrite !bind_Ok, Hn.
    cbn [replicate assign length Nat.ltb Nat.leb insert list_insert].
    rewrite bind_Ok. replace (Z.to_nat (size - 1)) with n by lia.
    fold r0. rewrite Hrun, bind_Ok. split_and!; [done| |done..].
    rewrite Hlen. simpl. rewrite length_replicate. lia.
Qed.

Lemma GenerateRefString_spec_witness :
  (∃ F, ∀ fuel, (F ≤ fuel)%nat →
     ∃ v, GenerateRefString fuel (λ k, Z.of_nat k) 3 2 = Ok v
          ∧ Z.of_nat (length v) = 3
          ∧ Forall (λ x, 0 ≤ x < 2) v
          ∧ no_adjacent_dup v = true)
  ∧ (∀ fuel bound, GenerateRefString fuel (λ k, Z.of_nat k) 0 bound = Ok []).
Proof.
  apply (GenerateRefString_spec (λ k, Z.of_nat k) 3 2).
  - intros k. lia.
  - apply counter_rand_fair.
  - lia.
  - lia.
Defined.

(** C6. [GenerateRefString] has no guard on [upper_bound] and no failure
    result of its own, so a request that cannot be satisfied is not
    reported.  For a positive [size]: with [upper_bound] 0 the
    first draw is a modulo by zero and the call is undefined; with
    [upper_bound] 1 or -1 and [size] above 1 the redraw loop runs out of
    any fuel, and with [size] 1 the call returns the sequence 0; a negative
    [upper_bound] is not rejected and acts as its absolute value. *)
Theorem GenerateRefString_unguarded (fuel : nat) (rand : nat → Z)
    (size upper_bound : Z) :
  0 < size →
  GenerateRefString fuel rand size 0 = Undefined
  ∧ (1 < size →
     GenerateRefString fuel rand size 1 = OutOfFuel
     ∧ GenerateRefString fuel rand size (-1) = OutOfFuel)
  ∧ GenerateRefString fuel rand 1 1 = Ok [0]
  ∧ GenerateRefString fuel rand 1 (-1) = Ok [0]
  ∧ GenerateRefString fuel rand size (- upper_bound)
    = GenerateRefString fuel rand size upper_bound.
Proof.
  intros Hsize. split_and!.
  - unfold GenerateRefString.
    destruct (Z.ltb_spec size 0); [lia|].
    by destruct (Z.eqb_spec size 0); [lia|].
  - intros H1. change (-1) with (Z.opp 1).
    rewrite (GenerateRefString_opp rand fuel size 1).
    split; by apply GenerateRefString_bound_1_diverges.
  - apply GenerateRefString_bound_1_single.
  - change (-1) with (Z.opp 1).
    rewrite (GenerateRefString_opp rand fuel 1 1).
    apply GenerateRefString_bound_1_single.
  - apply GenerateRefString_opp.
Qed.

Lemma GenerateRefString_unguarded_witness :
  GenerateRefString 5 (λ k, Z.of_nat k) 2 0 = Undefined
  ∧ (1 < 2 →
     GenerateRefString 5 (λ k, Z.of_nat k) 2 1 = OutOfFuel
     ∧ GenerateRefString 5 (λ k, Z.of_nat k) 2 (-1) = OutOfFuel)
  ∧ GenerateRefString 5 (λ k, Z.of_nat k) 1 1 = Ok [0]
  ∧ GenerateRefString 5 (λ k, Z.of_nat k) 1 (-1) = Ok [0]
  ∧ GenerateRefString 5 (λ k, Z.of_nat k) 2 (- 3)
    = GenerateRefString 5 (λ k, Z.of_nat k) 2 3.
Proof. apply (GenerateRefString_unguarded 5 (λ k, Z.of_nat k) 2 3). lia. Defined.

(** The main window passes the value of its page-count box, which can be
    set to 0 and to 1, as the bound of a sequence of 20 elements. *)
Lemma GenerateReferenceString_few_pages (fuel : nat) (rand : nat → Z) :
  MainWindow.GenerateReferenceString fuel rand 0 = Undefined
  ∧ MainWindow.GenerateReferenceString fuel rand 1 = OutOfFuel.
Proof.
  unfold MainWindow.GenerateReferenceString. split.
  - done.
  - by rewrite GenerateRefString_bound_1_diverges.
Qed.

(** With [size] 1 and [upper_bound] -1 the call is not rejected: it
    returns the sequence 0. *)
Lemma GenerateRefString_negative_bound_accepted :
  GenerateRefString 1 (λ k, Z.of_nat k) 1 (-1) = Ok [0].
Proof. reflexivity. Qed.

(** ** Counting faults *)

Section Counting.

Implicit Types (l s : list Z) (x y n : Z).

(** *** Pages ahead and pages held *)

Lemma new_pages_nil l : new_pages [] l = 0.
Proof.
  unfold new_pages. rewrite list_to_set_nil.
  replace (∅ ∖ list_to_set l : gset Z) with (∅ : gset Z); [done|].
  apply set_eq. intros y. rewrite elem_of_difference.
  split; [by intros ?%elem_of_empty|by intros [?%elem_of_empty _]].
Qed.

Lemma new_pages_all s : new_pages s [] = distinct_pages s.
Proof.
  unfold new_pages, distinct_pages. rewrite list_to_set_nil.
  do 2 f_equal. apply set_eq. intros y. rewrite elem_of_difference.
  split; [by intros [? _]|]. intros Hy. split; [done|].
  by intros ?%elem_of_empty.
Qed.

Lemma all_pages_all s : all_pages [] s = distinct_pages s.
Proof.
  unfold all_pages, distinct_pages. rewrite list_to_set_nil.
  do 2 f_equal. apply set_eq. intros y. rewrite elem_of_union.
  split; [by intros [?%elem_of_empty|?]|by right].
Qed.

Lemma new_pages_same l l' s :
  (∀ y, y ∈ l ↔ y ∈ l') → new_pages s l = new_pages s l'.
Proof.
  intros Hll. unfold new_pages. do 2 f_equal. apply set_eq. intros y.
  rewrite !elem_of_difference, !elem_of_list_to_set. by rewrite Hll.
Qed.

Lemma all_pages_same l l' s :
  (∀ y, y ∈ l ↔ y ∈ l') → all_pages l s = all_pages l' s.
Proof.
  intros Hll. unfold all_pages. do 2 f_equal. apply set_eq. intros y.
  rewrite !elem_of_union, !elem_of_list_to_set. by rewrite Hll.
Qed.

Lemma new_pages_hit l s x : x ∈ l → new_pages (x :: s) l = new_pages s l.
Proof.
  intros Hx. unfold new_pages. do 2 f_equal. apply set_eq. intros y.
  rewrite !elem_of_difference, !elem_of_list_to_set, elem_of_cons.
  split; [|by intros [? ?]; auto]. intros [[->|?] ?]; [done|auto].
Qed.

Lemma new_pages_miss l s x :
  x ∉ l → new_pages (x :: s) l = 1 + new_pages s (l ++ [x]).
Proof.
  intros Hx. unfold new_pages.
  replace (list_to_set (x :: s) ∖ list_to_set l : gset Z)
    with ({[x]} ∪ (list_to_set s ∖ list_to_set (l ++ [x])) : gset Z).
  - rewrite size_union, size_singleton; [lia|].
    intros y ->%elem_of_singleton [_ Hy]%elem_of_difference.
    apply Hy, elem_of_list_to_set, elem_of_app. right. by left.
  - apply set_eq. intros y.
    rewrite elem_of_union, !elem_of_difference, !elem_of_list_to_set,
      elem_of_singleton, elem_of_cons, elem_of_app, list_elem_of_singleton.
    split.
    + intros [->|[? Hy]]; [by auto|]. split; [by right|]. intros ?. apply Hy. by left.
    + intros [[->|?] Hy]; [by left|]. destruct (decide (y = x)) as [->|?]; [by left|].
      right. split; [done|]. by intros [?|?].
Qed.

Lemma all_pages_hit l s x : x ∈ l → all_pages l (x :: s) = all_pages l s.
Proof.
  intros Hx. unfold all_pages. do 2 f_equal. apply set_eq. intros y.
  rewrite !elem_of_union, !elem_of_list_to_set, elem_of_cons.
  split; [|by intros [?|?]; auto]. intros [?|[->|?]]; auto.
Qed.

Lemma all_pages_miss l s x : all_pages (l ++ [x]) s = all_pages l (x :: s).
Proof.
  unfold all_pages. do 2 f_equal. apply set_eq. intros y.
  rewrite !elem_of_union, !elem_of_list_to_set, elem_of_cons, elem_of_app,
    list_elem_of_singleton.
  split; [intros [[?|?]|?]; auto|intros [?|[?|?]]; auto].
Qed.

Lemma all_pages_length l s : NoDup l → Z.of_nat (length l) ≤ all_pages l s.
Proof.
  intros Hnd. unfold all_pages.
  rewrite <- (size_list_to_set (C:=gset Z) l Hnd).
  apply inj_le, subseteq_size. intros y Hy. apply elem_of_union. by left.
Qed.

Lemma all_pages_room l s x :
  NoDup l → x ∉ l → Z.of_nat (length l) + 1 ≤ all_pages l (x :: s).
Proof.
  intros Hnd Hx. rewrite <- all_pages_miss.
  assert (NoDup (l ++ [x])) as Hnd'.
  { apply NoDup_app. split_and!; [done| |apply NoDup_singleton].
    by intros y Hy ->%list_elem_of_singleton. }
  pose proof (all_pages_length (l ++ [x]) s Hnd') as H.
  rewrite length_app in H. cbn [length] in H. lia.
Qed.

Lemma NoDup_snoc_fresh l x : NoDup l → x ∉ l → NoDup (l ++ [x]).
Proof.
  intros Hnd Hx. apply NoDup_app. split_and!; [done| |apply NoDup_singleton].
  by intros y Hy ->%list_elem_of_singleton.
Qed.

(** *** Steps for any value of the bounds *)

Lemma fifo_step_insert num_frames l n x :
  x ∉ l → Z.of_nat (length l) ≠ size_t_of_int num_frames → n < INT_MAX →
  FIFOPageReplacement.step num_frames (l, n) x = Ok (l ++ [x], n + 1).
Proof.
  intros Hin%FindInContainer_not_elem_of Hlen Hn.
  unfold FIFOPageReplacement.step. rewrite Hin. cbn [negb].
  rewrite (proj2 (Z.eqb_neq _ _) Hlen), !bind_Ok. by rewrite incr_Ok.
Qed.

Lemma opt_step_hit num_pages num_frames l n x rest :
  x ∈ l → OPTPageReplacement.step num_pages num_frames (l, n) x rest = Ok (l, n).
Proof.
  intros Hin%FindInContainer_elem_of. unfold OPTPageReplacement.step.
  by rewrite Hin, !andb_false_r.
Qed.

Lemma opt_step_insert num_pages num_frames l n x rest :
  x ∉ l → Z.of_nat (length l) ≠ size_t_of_int num_pages →
  Z.of_nat (length l) ≠ size_t_of_int num_frames → n < INT_MAX →
  OPTPageReplacement.step num_pages num_frames (l, n) x rest
  = Ok (l ++ [x], n + 1).
Proof.
  intros Hin%FindInContainer_not_elem_of Hp Hc Hn.
  unfold OPTPageReplacement.step. rewrite Hin.
  rewrite (proj2 (Z.eqb_neq _ _) Hp), (proj2 (Z.eqb_neq _ _) Hc).
  cbn [andb negb]. by rewrite incr_Ok.
Qed.

(** *** Strings whose pages all fit *)

Lemma fifo_replay_fits num_frames : ∀ s l n,
  NoDup l → all_pages l s ≤ size_t_of_int num_frames →
  n + Z.of_nat (length s) ≤ INT_MAX →
  ∃ l', replay (FIFOPageReplacement.step num_frames) s (l, n)
        = Ok (l', n + new_pages s l).
Proof.
  induction s as [|x s IH]; intros l n Hnd Hfit Hn.
  - exists l. rewrite new_pages_nil, Z.add_0_r. done.
  - cbn [length] in Hn. cbn [replay].
    destruct (decide (x ∈ l)) as [Hin|Hnin].
    + rewrite fifo_step_hit, bind_Ok by done.
      rewrite new_pages_hit by done. rewrite all_pages_hit in Hfit by done.
      apply IH; [done|done|lia].
    + pose proof (all_pages_room l s x Hnd Hnin).
      rewrite fifo_step_insert, bind_Ok by (done || lia).
      rewrite new_pages_miss by done.
      destruct (IH (l ++ [x]) (n + 1)) as [l' ->];
        [by apply NoDup_snoc_fresh|by rewrite all_pages_miss|lia|].
      exists l'. do 2 f_equal. lia.
Qed.

Lemma opt_loop_fits num_pages num_frames : ∀ s l n,
  NoDup l → all_pages l s ≤ size_t_of_int num_pages →
  all_pages l s ≤ size_t_of_int num_frames →
  n + Z.of_nat (length s) ≤ INT_MAX →
  ∃ l', OPTPageReplacement.loop num_pages num_frames s (l, n)
        = Ok (l', n + new_pages s l).
Proof.
  induction s as [|x s IH]; intros l n Hnd Hp Hc Hn.
  - exists l. rewrite new_pages_nil, Z.add_0_r. done.
  - cbn [length] in Hn. cbn [OPTPageReplacement.loop].
    destruct (decide (x ∈ l)) as [Hin|Hnin].
    + rewrite opt_step_hit, bind_Ok by done.
      rewrite new_pages_hit by done.
      rewrite all_pages_hit in Hp, Hc by done.
      apply IH; [done|done|done|lia].
    + pose proof (all_pages_room l s x Hnd Hnin).
      rewrite opt_step_insert, bind_Ok by (done || lia).
      rewrite new_pages_miss by done.
      destruct (IH (l ++ [x]) (n + 1)) as [l' ->];
        [by apply NoDup_snoc_fresh|by rewrite all_pages_miss..|lia|].
      exists l'. do 2 f_equal. lia.
Qed.

End Counting.

(** X3. When the distinct pages of the reference string are no more than
    the frames, FIFO counts exactly one fault per distinct page; so does
    OPT when they are no more than the pages either.  The bounds are
    compared the way the code does it, after conversion to [size_t], so a
    negative number of frames never evicts. *)
Theorem faults_when_all_pages_fit (s : list Z) (num_pages num_frames : Z) :
  Z.of_nat (length s) ≤ INT_MAX →
  distinct_pages s ≤ size_t_of_int num_frames →
  FIFOPageReplacement.CalculatePageFaults
    (Build_AbstractPageReplacement s num_pages num_frames)
  = Ok (distinct_pages s)
  ∧ (distinct_pages s ≤ size_t_of_int num_pages →
     OPTPageReplacement.CalculatePageFaults
       (Build_AbstractPageReplacement s num_pages num_frames)
     = Ok (distinct_pages s)).
Proof.
  intros Hlen Hfit.
  unfold FIFOPageReplacement.CalculatePageFaults,
    OPTPageReplacement.CalculatePageFaults.
  cbn [ref_string_ num_pages_ num_frames_]. split_and!.
  - destruct (fifo_replay_fits num_frames s [] 0) as [l ->];
      [constructor|by rewrite all_pages_all|lia|].
    by rewrite bind_Ok, new_pages_all.
  - intros Hp.
    destruct (opt_loop_fits num_pages num_frames s [] 0) as [l ->];
      [constructor|by rewrite all_pages_all..|lia|].
    by rewrite bind_Ok, new_pages_all.
Qed.

Lemma faults_when_all_pages_fit_witness :
  FIFOPageReplacement.CalculatePageFaults
    (Build_AbstractPageReplacement [1; 2; 1; 3; 2] 9 (-1))
  = Ok (distinct_pages [1; 2; 1; 3; 2])
  ∧ (distinct_pages [1; 2; 1; 3; 2] ≤ size_t_of_int 9 →
     OPTPageReplacement.CalculatePageFaults
       (Build_AbstractPageReplacement [1; 2; 1; 3; 2] 9 (-1))
     = Ok (distinct_pages [1; 2; 1; 3; 2])).
Proof.
  apply (faults_when_all_pages_fit [1; 2; 1; 3; 2] 9 (-1)).
  - by vm_compute.
  - by vm_compute.
Defined.

(** X1. With at least one frame FIFO returns for every reference string,
    and its count lies between the number of distinct pages of the string
    and its length. *)
Theorem fifo_fault_bounds (s : list Z) (num_pages num_frames : Z) :
  1 ≤ num_frames ≤ INT_MAX →
  Z.of_nat (length s) ≤ INT_MAX →
  ∃ n_fifo,
    FIFOPageReplacement.CalculatePageFaults
      (Build_AbstractPageReplacement s num_pages num_frames) = Ok n_fifo
    ∧ distinct_pages s ≤ n_fifo ≤ Z.of_nat (length s).
Proof.
  intros Hc Hlen.
  destruct (fifo_replay_inv num_frames s Hc Hlen)
    as (lf & nf & Hfifo & _ & _ & _ & Hnf).
  exists nf. unfold FIFOPageReplacement.CalculatePageFaults.
  cbn [ref_string_ num_pages_ num_frames_].
  by rewrite Hfifo, !bind_Ok.
Qed.

Lemma fifo_fault_bounds_witness :
  ∃ n_fifo,
    FIFOPageReplacement.CalculatePageFaults
      (Build_AbstractPageReplacement [1; 2; 3; 1; 4] 9 2) = Ok n_fifo
    ∧ distinct_pages [1; 2; 3; 1; 4] ≤ n_fifo
      ≤ Z.of_nat (length [1; 2; 3; 1; 4]).
Proof.
  apply (fifo_fault_bounds [1; 2; 3; 1; 4] 9 2).
  - unfold INT_MAX. lia.
  - by vm_compute.
Defined.

(** X2. With at least one frame, after any number of requests the deque of
    FIFO holds no page twice, at most [num_frames] pages and only pages
    that were requested, and the page requested last is resident. *)
Theorem fifo_resident_set (num_frames : Z) (done : list Z) (x : Z) :
  1 ≤ num_frames ≤ INT_MAX →
  Z.of_nat (length (done ++ [x])) ≤ INT_MAX →
  ∃ lf nf,
    replay (FIFOPageReplacement.step num_frames) (done ++ [x]) ([], 0)
    = Ok (lf, nf)
    ∧ NoDup lf ∧ Z.of_nat (length lf) ≤ num_frames
    ∧ (∀ y, y ∈ lf → y ∈ done ++ [x]) ∧ x ∈ lf.
Proof.
  intros Hc Hlen.
  destruct (fifo_replay_inv num_frames (done ++ [x]) Hc Hlen)
    as (lf & nf & Hfifo & Hndf & Hsubf & Hcapf & _).
  exists lf, nf. split_and!; try done.
  rewrite length_app in Hlen. cbn [length] in Hlen.
  destruct (fifo_replay_inv num_frames done Hc)
    as (l0 & n0 & Hrun0 & Hnd0 & _ & Hcap0 & Hn0); [lia|].
  rewrite replay_snoc, Hrun0, bind_Ok in Hfifo.
  destruct (decide (x ∈ l0)) as [Hin|Hnin].
  - rewrite fifo_step_hit in Hfifo by done. by simplify_eq.
  - destruct (decide (Z.of_nat (length l0) = num_frames)) as [Hfull|Hroom].
    + destruct (fifo_step_full num_frames Hc l0 n0 x)
        as (h & t & -> & Hstep); [done|done|lia|].
      rewrite Hstep in Hfifo. simplify_eq.
      apply elem_of_app. right. by left.
    + rewrite (fifo_step_room num_frames Hc) in Hfifo by (done || lia).
      simplify_eq. apply elem_of_app. right. by left.
Qed.

Lemma fifo_resident_set_witness :
  ∃ lf nf,
    replay (FIFOPageReplacement.step 2) ([1; 2; 1] ++ [3]) ([], 0)
    = Ok (lf, nf)
    ∧ NoDup lf ∧ Z.of_nat (length lf) ≤ 2
    ∧ (∀ y, y ∈ lf → y ∈ [1; 2; 1] ++ [3]) ∧ 3 ∈ lf.
Proof.
  apply (fifo_resident_set 2 [1; 2; 1] 3).
  - unfold INT_MAX. lia.
  - by vm_compute.
Defined.

(** ** The eviction of OPT *)

Section OptEviction.

Implicit Types (l cur future acc st rest a b pre suf : list Z) (x y v n : Z).

(** The stack keeps what it held, and gains the resident pages requested
    in [future], each once. *)
Lemma build_stack_spec cur : ∀ future acc,
  NoDup acc →
  NoDup (OPTPageReplacement.build_stack cur future acc)
  ∧ (∀ y, y ∈ OPTPageReplacement.build_stack cur future acc
          ↔ y ∈ acc ∨ (y ∈ cur ∧ y ∈ future))
  ∧ ∃ new, OPTPageReplacement.build_stack cur future acc = acc ++ new.
Proof.
  induction future as [|z future IH]; intros acc Hacc;
    cbn [OPTPageReplacement.build_stack].
  - split_and!; [done| |exists []; by rewrite app_nil_r].
    intros y. split; [by left|]. by intros [?|[_ ?%elem_of_nil]].
  - destruct (FindInContainer z cur) eqn:Hcur; cbn [negb].
    + apply FindInContainer_elem_of in Hcur.
      destruct (FindInContainer z acc) eqn:Hzacc; cbn [negb].
      * apply FindInContainer_elem_of in Hzacc.
        destruct (IH acc Hacc) as (Hnd & Hin & Hpre).
        split_and!; [done| |done]. intros y. rewrite Hin, elem_of_cons.
        split; [intros [?|[? ?]]; auto|].
        intros [?|[? [->|?]]]; auto.
      * apply FindInContainer_not_elem_of in Hzacc.
        destruct (IH (acc ++ [z]) (NoDup_snoc_fresh _ _ Hacc Hzacc))
          as (Hnd & Hin & [new Hpre]).
        split_and!; [done| |exists (z :: new); by rewrite Hpre, <- app_assoc].
        intros y. rewrite Hin, elem_of_app, list_elem_of_singleton, elem_of_cons.
        split; [intros [[?| ->]|[? ?]]; auto|].
        intros [?|[? [->|?]]]; auto.
    + apply FindInContainer_not_elem_of in Hcur.
      destruct (IH acc Hacc) as (Hnd & Hin & Hpre).
      split_and!; [done| |done]. intros y. rewrite Hin, elem_of_cons.
      split; [intros [?|[? ?]]; auto|].
      intros [?|[Hy [->|?]]]; [auto|done|auto].
Qed.

(** The page on top of the stack is the one whose first request in
    [future] comes last: every other page of the stack is already in the
    stack at the start or requested before it. *)
Lemma build_stack_last cur : ∀ future acc v,
  NoDup acc → v ∉ acc →
  last (OPTPageReplacement.build_stack cur future acc) = Some v →
  ∃ pre suf, future = pre ++ v :: suf ∧ (v ∉ pre)
    ∧ (∀ y, y ∈ OPTPageReplacement.build_stack cur future acc → y ≠ v →
            y ∈ acc ∨ y ∈ pre).
Proof.
  induction future as [|z future IH]; intros acc v Hacc Hv Hlast;
    cbn [OPTPageReplacement.build_stack] in *.
  - apply last_Some_elem_of in Hlast. done.
  - destruct (FindInContainer z cur) eqn:Hcur; cbn [negb] in *.
    + apply FindInContainer_elem_of in Hcur.
      destruct (FindInContainer z acc) eqn:Hzacc; cbn [negb] in *.
      * apply FindInContainer_elem_of in Hzacc.
        destruct (IH acc v Hacc Hv Hlast) as (pre & suf & -> & Hpre & Hall).
        exists (z :: pre), suf. split_and!; [done| |].
        -- apply not_elem_of_cons. split; [by intros ->|done].
        -- intros y Hy Hne. destruct (Hall y Hy Hne); [by left|right; by right].
      * apply FindInContainer_not_elem_of in Hzacc.
        pose proof (NoDup_snoc_fresh _ _ Hacc Hzacc) as Hacc'.
        destruct (decide (v = z)) as [->|Hvz].
        -- (* [z] itself is on top: nothing was pushed after it *)
           destruct (build_stack_spec cur future (acc ++ [z]) Hacc')
             as (Hnd & _ & [new Hnew]).
           rewrite Hnew in Hlast, Hnd |- *.
           destruct (decide (new = [])) as [->|Hne].
           ++ exists [], future. split_and!; [done|by intros ?%elem_of_nil|].
              intros y Hy Hyz. left. rewrite app_nil_r in Hy.
              by apply elem_of_app in Hy as [?|?%list_elem_of_singleton].
           ++ destruct (exists_last Hne) as (new' & w & ->).
              rewrite app_assoc, last_snoc in Hlast. simplify_eq.
              apply NoDup_app in Hnd as (_ & Hcross & _).
              destruct (Hcross z).
              ** apply elem_of_app. right. by left.
              ** apply elem_of_app. right. by left.
        -- destruct (IH (acc ++ [z]) v Hacc') as (pre & suf & -> & Hpre & Hall);
             [|done|].
           { by intros [?|?%list_elem_of_singleton]%elem_of_app. }
           exists (z :: pre), suf. split_and!; [done| |].
           ++ apply not_elem_of_cons. split; [done|done].
           ++ intros y Hy Hne.
              destruct (Hall y Hy Hne) as [[?| ->%list_elem_of_singleton]%elem_of_app|?].
              ** by left.
              ** right. by left.
              ** right. by right.
    + apply FindInContainer_not_elem_of in Hcur.
      destruct (IH acc v Hacc Hv Hlast) as (pre & suf & -> & Hpre & Hall).
      exists (z :: pre), suf. split_and!; [done| |].
      * apply not_elem_of_cons. split; [|done]. intros ->.
        apply last_Some_elem_of in Hlast.
        destruct (build_stack_spec cur (pre ++ z :: suf) acc Hacc) as (_ & Hin & _).
        apply Hin in Hlast as [?|[? _]]; done.
      * intros y Hy Hne. destruct (Hall y Hy Hne); [by left|right; by right].
Qed.

Lemma erase_top_spec st v : ∀ a b,
  last st = Some v → v ∉ a →
  OPTPageReplacement.erase_top st (a ++ v :: b) = Ok (a ++ b).
Proof.
  intros a b Hlast. induction a as [|y a IH]; intros Hv;
    cbn [app OPTPageReplacement.erase_top]; unfold OPTPageReplacement.rbegin;
    rewrite Hlast, bind_Ok.
  - by rewrite Z.eqb_refl.
  - apply not_elem_of_cons in Hv as [Hne Hv].
    destruct (Z.eqb_spec y v) as [->|_]; [done|].
    by rewrite IH, bind_Ok.
Qed.

Lemma erase_unused_spec st v : ∀ a b,
  (∀ y, y ∈ a → y ∈ st) → v ∉ st →
  OPTPageReplacement.erase_unused st (a ++ v :: b) = a ++ b.
Proof.
  intros a b Ha Hv. induction a as [|y a IH];
    cbn [app OPTPageReplacement.erase_unused].
  - apply FindInContainer_not_elem_of in Hv. by rewrite Hv.
  - assert (FindInContainer y st = true) as ->.
    { apply FindInContainer_elem_of, Ha. by left. }
    cbn [negb]. rewrite IH; [done|]. intros z Hz. apply Ha. by right.
Qed.

(** A list with a page outside [st] splits at the first such page. *)
Lemma first_outside st : ∀ l,
  ¬ (∀ y, y ∈ l → y ∈ st) →
  ∃ a v b, l = a ++ v :: b ∧ (∀ y, y ∈ a → y ∈ st) ∧ v ∉ st.
Proof.
  induction l as [|z l IH]; intros Hnot.
  - destruct Hnot. by intros y ?%elem_of_nil.
  - destruct (decide (z ∈ st)) as [Hz|Hz].
    + destruct IH as (a & v & b & -> & Ha & Hv).
      { intros Hall. apply Hnot. intros y [->|?]%elem_of_cons; auto. }
      exists (z :: a), v, b. split_and!; [done| |done].
      intros y [->|?]%elem_of_cons; auto.
    + exists [], z, l. split_and!; [done| |done]. by intros y ?%elem_of_nil.
Qed.

(** The eviction branch: a miss with as many pages resident as
    [num_pages] says. *)
Lemma opt_step_evict num_pages num_frames l n x rest :
  NoDup l → l ≠ [] → x ∉ l →
  Z.of_nat (length l) = size_t_of_int num_pages → n < INT_MAX →
  ∃ a v b, l = a ++ v :: b
    ∧ OPTPageReplacement.step num_pages num_frames (l, n) x rest
      = Ok (a ++ b ++ [x], n + 1)
    ∧ (((v ∉ rest) ∧ (∀ y, y ∈ a → y ∈ rest))
       ∨ (∃ pre suf, rest = pre ++ v :: suf ∧ (v ∉ pre)
            ∧ (∀ y, y ∈ l → y ≠ v → y ∈ pre))).
Proof.
  intros Hnd Hne Hx Hlen Hn.
  pose proof Hx as Hfind. apply FindInContainer_not_elem_of in Hfind.
  unfold OPTPageReplacement.step.
  rewrite (proj2 (Z.eqb_eq _ _) Hlen), Hfind. cbn [negb andb].
  cbn [OPTPageReplacement.build_stack]. rewrite Hfind. cbn [negb].
  destruct (build_stack_spec l rest [] NoDup_nil_2) as (Hst & Hin & _).
  set (st := OPTPageReplacement.build_stack l rest []) in *.
  assert (∀ y, y ∈ st → y ∈ l ∧ y ∈ rest) as Hst_in.
  { intros y Hy. by apply Hin in Hy as [?%elem_of_nil|?]. }
  assert (st ⊆+ l) as Hsub.
  { apply NoDup_submseteq; [done|]. intros y Hy. by apply Hst_in. }
  rewrite <- Hlen.
  destruct (Z.eqb_spec (Z.of_nat (length st)) (Z.of_nat (length l)))
    as [Heq|Hneq].
  - (* every resident page is requested again *)
    assert (st ≡ₚ l) as Hperm.
    { apply submseteq_length_Permutation; [done|lia]. }
    destruct (last st) as [v|] eqn:Hlast.
    2:{ apply last_None in Hlast. rewrite Hlast in Heq.
        destruct l; [done|simpl in Heq; lia]. }
    assert (v ∈ l) as Hv.
    { rewrite <- Hperm. by apply last_Some_elem_of. }
    destruct (list_elem_of_split_l l v Hv) as (a & b & -> & Ha).
    exists a, v, b. split; [done|].
    rewrite (erase_top_spec st v a b Hlast Ha), bind_Ok, incr_Ok by done.
    rewrite bind_Ok, <- app_assoc. split; [done|]. right.
    destruct (build_stack_last (a ++ v :: b) rest [] v NoDup_nil_2)
      as (pre & suf & -> & Hpre & Hall); [by intros ?%elem_of_nil|done|].
    exists pre, suf. split_and!; [done|done|].
    intros y Hy Hyv. fold st in Hall.
    destruct (Hall y) as [?%elem_of_nil|?]; [by rewrite Hperm|done|done|done].
  - (* some resident page is not requested again *)
    destruct (first_outside st l) as (a & v & b & -> & Ha & Hv).
    { intros Hall. apply Hneq. f_equal.
      apply Nat.le_antisymm; [by apply submseteq_length|].
      apply submseteq_length, NoDup_submseteq; done. }
    exists a, v, b. split; [done|].
    rewrite (erase_unused_spec st v a b Ha Hv), bind_Ok, incr_Ok by done.
    rewrite bind_Ok, <- app_assoc. split; [done|]. left. split.
    + intros Hrest. apply Hv, Hin. right. split; [|done].
      apply elem_of_app. right. by left.
    + intros y Hy. by apply Hst_in, Ha.
Qed.

End OptEviction.

(** X7. When OPT takes its eviction branch (the requested page is absent
    and as many pages are resident as [num_pages] says), it removes one
    resident page, appends the requested page and counts one fault.  The
    page removed is either the first resident page that is not requested
    again, or, when every resident page is requested again, the page
    whose next request comes after the next request of every other
    resident page. *)
Theorem opt_evicts_furthest_next_use
    (num_pages num_frames : Z) (l : list Z) (n x : Z) (rest : list Z) :
  NoDup l → l ≠ [] → x ∉ l →
  Z.of_nat (length l) = size_t_of_int num_pages → n < INT_MAX →
  ∃ a v b, l = a ++ v :: b
    ∧ OPTPageReplacement.step num_pages num_frames (l, n) x rest
      = Ok (a ++ b ++ [x], n + 1)
    ∧ (((v ∉ rest) ∧ (∀ y, y ∈ a → y ∈ rest))
       ∨ (∃ pre suf, rest = pre ++ v :: suf ∧ (v ∉ pre)
            ∧ (∀ y, y ∈ l → y ≠ v → y ∈ pre))).
Proof. apply opt_step_evict. Qed.

Lemma opt_evicts_furthest_next_use_witness :
  ∃ a v b, [1; 2; 3] = a ++ v :: b
    ∧ OPTPageReplacement.step 3 3 ([1; 2; 3], 3) 4 [1; 2; 3]
      = Ok (a ++ b ++ [4], 3 + 1)
    ∧ (((v ∉ [1; 2; 3]) ∧ (∀ y, y ∈ a → y ∈ [1; 2; 3]))
       ∨ (∃ pre suf, [1; 2; 3] = pre ++ v :: suf ∧ (v ∉ pre)
            ∧ (∀ y, y ∈ [1; 2; 3] → y ≠ v → y ∈ pre))).
Proof.
  apply (opt_evicts_furthest_next_use 3 3 [1; 2; 3] 3 4 [1; 2; 3]).
  - by apply (bool_decide_unpack _); vm_compute.
  - done.
  - by apply (bool_decide_unpack _); vm_compute.
  - by vm_compute.
  - by vm_compute.
Defined.

(** ** OPT replays *)

Section OptReplay.

Implicit Types (l s rest : list Z) (x y n : Z).

Lemma all_pages_nil l : NoDup l → all_pages l [] = Z.of_nat (length l).
Proof.
  intros Hnd. unfold all_pages.
  rewrite <- (size_list_to_set (C:=gset Z) l Hnd), list_to_set_nil.
  do 2 f_equal. apply set_eq. intros y. rewrite elem_of_union.
  split; [by intros [?|?%elem_of_empty]|by left].
Qed.

(** With more pages than frames the eviction branch is out of reach:
    the deque fills up to [num_frames] pages and then stays as it is. *)
Lemma opt_loop_more_pages num_pages num_frames : ∀ s l n,
  0 ≤ num_frames ≤ INT_MAX → num_frames < size_t_of_int num_pages →
  NoDup l → Z.of_nat (length l) ≤ num_frames →
  n + Z.of_nat (length s) ≤ INT_MAX →
  ∃ l', OPTPageReplacement.loop num_pages num_frames s (l, n)
        = Ok (l', n + (Z.min num_frames (all_pages l s) - Z.of_nat (length l))).
Proof.
  intros s l n Hc Hp. revert l n.
  induction s as [|x s IH]; intros l n Hnd Hlen Hn.
  - exists l. rewrite all_pages_nil by done. cbn. do 2 f_equal. lia.
  - cbn [length] in Hn. cbn [OPTPageReplacement.loop].
    destruct (decide (x ∈ l)) as [Hin|Hnin].
    + rewrite opt_step_hit, bind_Ok, all_pages_hit by done.
      apply IH; [done|done|lia].
    + destruct (decide (Z.of_nat (length l) = num_frames)) as [Hfull|Hroom].
      * rewrite opt_step_full_ignored, bind_Ok by (done || lia).
        destruct (IH l n) as [l' ->]; [done|done|lia|].
        exists l'. do 2 f_equal.
        pose proof (all_pages_length l s Hnd).
        pose proof (all_pages_length l (x :: s) Hnd). lia.
      * rewrite opt_step_insert, bind_Ok;
          [| done | lia | rewrite size_t_of_int_small by done; lia | lia].
        destruct (IH (l ++ [x]) (n + 1)) as [l' ->].
        -- by apply NoDup_snoc_fresh.
        -- rewrite length_app. cbn [length]. lia.
        -- lia.
        -- exists l'. rewrite all_pages_miss, length_app. cbn [length].
           do 2 f_equal. lia.
Qed.

Lemma build_stack_no_pages : ∀ future acc,
  OPTPageReplacement.build_stack [] future acc = acc.
Proof. induction future as [|z future IH]; intros acc; [done|apply IH]. Qed.

Lemma new_pages_miss_le l l' s x :
  (∀ y, y ∈ l' → y ∈ l ∨ y = x) →
  new_pages (x :: s) l ≤ 1 + new_pages s l'.
Proof.
  intros Hsub. unfold new_pages.
  assert (size (list_to_set (x :: s) ∖ list_to_set l : gset Z)
          ≤ size ({[x]} ∪ (list_to_set s ∖ list_to_set l') : gset Z))%nat as H1.
  { apply subseteq_size. intros y.
    rewrite elem_of_union, !elem_of_difference, !elem_of_list_to_set,
      elem_of_singleton, elem_of_cons.
    intros [[->|Hy] Hl]; [by left|].
    destruct (decide (y = x)) as [->|Hne]; [by left|].
    right. split; [done|]. intros Hl'. by destruct (Hsub y Hl'). }
  pose proof (size_union_alt ({[x]} : gset Z)
                (list_to_set s ∖ list_to_set l')) as H3.
  pose proof (size_singleton (C:=gset Z) x) as H4.
  assert (size ((list_to_set s ∖ list_to_set l') ∖ {[x]} : gset Z)
          ≤ size (list_to_set s ∖ list_to_set l' : gset Z))%nat as H2.
  { apply subseteq_size. by intros y [? _]%elem_of_difference. }
  lia.
Qed.

(** One step of OPT with at least one frame. *)
Lemma opt_step_cases num_pages num_frames l n x rest :
  1 ≤ num_frames ≤ INT_MAX → NoDup l →
  Z.of_nat (length l) ≤ num_frames → n < INT_MAX →
  ∃ l' n', OPTPageReplacement.step num_pages num_frames (l, n) x rest
           = Ok (l', n')
    ∧ NoDup l' ∧ Z.of_nat (length l') ≤ num_frames
    ∧ (∀ y, y ∈ l' → y ∈ l ∨ y = x)
    ∧ n ≤ n' ≤ n + 1
    ∧ (x ∈ l → n' = n)
    ∧ (size_t_of_int num_pages = num_frames → x ∉ l → n' = n + 1).
Proof.
  intros Hc Hnd Hlen Hn.
  destruct (decide (x ∈ l)) as [Hin|Hnin].
  { exists l, n. rewrite opt_step_hit by done.
    split_and!; [done|done|done|by left|lia..|done|done]. }
  destruct (decide (Z.of_nat (length l) = size_t_of_int num_pages))
    as [Hp|Hp].
  - destruct (decide (l = [])) as [->|Hne].
    + exists [x], (n + 1). unfold OPTPageReplacement.step.
      rewrite (proj2 (Z.eqb_eq _ _) Hp). cbn [FindInContainer negb andb].
      rewrite build_stack_no_pages. rewrite (proj2 (Z.eqb_eq _ _) Hp).
      cbn [OPTPageReplacement.erase_top]. rewrite bind_Ok, incr_Ok by done.
      split_and!; [done|apply NoDup_singleton|simpl; lia| |lia..|done|done].
      intros y ->%list_elem_of_singleton. by right.
    + destruct (opt_step_evict num_pages num_frames l n x rest)
        as (a & v & b & -> & -> & _); [done..|].
      exists (a ++ b ++ [x]), (n + 1).
      apply NoDup_app in Hnd as (Ha & Hcross & Hvb).
      apply NoDup_cons in Hvb as [Hv Hb].
      pose proof Hnin as Hnin0.
      apply not_elem_of_app in Hnin as [Hxa Hxvb].
      apply not_elem_of_cons in Hxvb as [Hxv Hxb].
      split_and!; [done| | | |lia..|by intros ?|done].
      * rewrite app_assoc. apply NoDup_snoc_fresh; [|by apply not_elem_of_app].
        apply NoDup_app. split_and!; [done| |done].
        intros y Hy Hy'. apply (Hcross y Hy). by right.
      * repeat rewrite length_app in Hlen. repeat rewrite length_app.
        cbn [length] in *. lia.
      * intros y. rewrite !elem_of_app, list_elem_of_singleton, elem_of_cons.
        intros [?|[?|?]]; auto.
  - destruct (decide (Z.of_nat (length l) = num_frames)) as [Hfull|Hroom].
    + exists l, n. rewrite opt_step_full_ignored by (done || lia).
      split_and!; [done|done|done|by left|lia..|done|].
      intros Heq. lia.
    + exists (l ++ [x]), (n + 1).
      rewrite opt_step_insert;
        [|done|done|rewrite size_t_of_int_small by lia; done|done].
      split_and!; [done|by apply NoDup_snoc_fresh| | |lia..|done|done].
      * rewrite length_app. cbn [length]. lia.
      * intros y [?|?%list_elem_of_singleton]%elem_of_app; auto.
Qed.

Lemma opt_loop_inv num_pages num_frames : ∀ s l n,
  1 ≤ num_frames ≤ INT_MAX → NoDup l →
  Z.of_nat (length l) ≤ num_frames →
  n + Z.of_nat (length s) ≤ INT_MAX →
  ∃ l' n', OPTPageReplacement.loop num_pages num_frames s (l, n)
           = Ok (l', n')
    ∧ NoDup l' ∧ Z.of_nat (length l') ≤ num_frames
    ∧ (∀ y, y ∈ l' → y ∈ l ∨ y ∈ s)
    ∧ n ≤ n' ≤ n + Z.of_nat (length s)
    ∧ (size_t_of_int num_pages = num_frames → n + new_pages s l ≤ n').
Proof.
  intros s l n Hc. revert l n.
  induction s as [|x s IH]; intros l n Hnd Hlen Hn.
  - exists l, n. rewrite new_pages_nil.
    split_and!; [done|done|done|by left|simpl; lia..|lia].
  - cbn [length] in Hn. cbn [OPTPageReplacement.loop].
    destruct (opt_step_cases num_pages num_frames l n x s Hc Hnd Hlen)
      as (l1 & n1 & -> & Hnd1 & Hlen1 & Hsub1 & Hn1 & Hhit & Hmiss); [lia|].
    rewrite bind_Ok.
    destruct (IH l1 n1 Hnd1 Hlen1) as
      (l' & n' & -> & Hnd' & Hlen' & Hsub' & Hn' & Hnew); [lia|].
    exists l', n'. split_and!; [done|done|done| |cbn [length]; lia..|].
    + intros y Hy. destruct (Hsub' y Hy) as [Hy1|Hy1].
      * destruct (Hsub1 y Hy1) as [?| ->]; [by left|right; by left].
      * right. by right.
    + intros Hp. specialize (Hnew Hp).
      destruct (decide (x ∈ l)) as [Hin|Hnin].
      * rewrite new_pages_hit by done. rewrite (Hhit Hin) in Hnew.
        assert (new_pages s l ≤ new_pages s l1); [|lia].
        unfold new_pages. apply inj_le, subseteq_size. intros y.
        rewrite !elem_of_difference, !elem_of_list_to_set.
        intros [Hy Hl]. split; [done|]. intros Hy1.
        destruct (Hsub1 y Hy1) as [?| ->]; done.
      * pose proof (new_pages_miss_le l l1 s x Hsub1).
        specialize (Hmiss Hp Hnin). lia.
Qed.

End OptReplay.

(** X9. When [num_pages] (taken as a [size_t]) is above [num_frames], OPT
    returns the smaller of [num_frames] and the number of distinct pages
    of the reference string: once [num_frames] pages are resident, later
    misses are neither counted nor served. *)
Theorem opt_faults_with_more_pages_than_frames
    (s : list Z) (num_pages num_frames : Z) :
  0 ≤ num_frames ≤ INT_MAX → num_frames < size_t_of_int num_pages →
  Z.of_nat (length s) ≤ INT_MAX →
  OPTPageReplacement.CalculatePageFaults
    (Build_AbstractPageReplacement s num_pages num_frames)
  = Ok (Z.min num_frames (distinct_pages s)).
Proof.
  intros Hc Hp Hlen. unfold OPTPageReplacement.CalculatePageFaults.
  cbn [ref_string_ num_pages_ num_frames_].
  destruct (opt_loop_more_pages num_pages num_frames s [] 0) as [l ->];
    [done|done|constructor|simpl; lia|lia|].
  rewrite bind_Ok, all_pages_all. cbn. f_equal. lia.
Qed.

Lemma opt_faults_with_more_pages_than_frames_witness :
  OPTPageReplacement.CalculatePageFaults
    (Build_AbstractPageReplacement [1; 2; 3; 4; 1; 5] 9 3)
  = Ok (Z.min 3 (distinct_pages [1; 2; 3; 4; 1; 5])).
Proof.
  apply (opt_faults_with_more_pages_than_frames [1; 2; 3; 4; 1; 5] 9 3).
  - unfold INT_MAX. lia.
  - by vm_compute.
  - by vm_compute.
Defined.

(** X8. With at least one frame OPT returns for every reference string
    and every [num_pages]: the count is at most the length of the string,
    and the final deque holds no page twice, at most [num_frames] pages
    and only requested pages.  When [num_pages] equals [num_frames] the
    count is at least the number of distinct pages. *)
Theorem opt_fault_bounds (s : list Z) (num_pages num_frames : Z) :
  1 ≤ num_frames ≤ INT_MAX →
  Z.of_nat (length s) ≤ INT_MAX →
  ∃ l n,
    OPTPageReplacement.loop num_pages num_frames s ([], 0) = Ok (l, n)
    ∧ OPTPageReplacement.CalculatePageFaults
        (Build_AbstractPageReplacement s num_pages num_frames) = Ok n
    ∧ 0 ≤ n ≤ Z.of_nat (length s)
    ∧ NoDup l ∧ Z.of_nat (length l) ≤ num_frames
    ∧ (∀ y, y ∈ l → y ∈ s)
    ∧ (size_t_of_int num_pages = num_frames → distinct_pages s ≤ n).
Proof.
  intros Hc Hlen.
  destruct (opt_loop_inv num_pages num_frames s [] 0 Hc)
    as (l & n & Hrun & Hnd & Hcap & Hsub & Hn & Hnew);
    [constructor|simpl; lia|lia|].
  exists l, n. unfold OPTPageReplacement.CalculatePageFaults.
  cbn [ref_string_ num_pages_ num_frames_]. rewrite Hrun, bind_Ok.
  split_and!; [done|done|lia|lia|done|done| |].
  - intros y Hy. by destruct (Hsub y Hy) as [?%elem_of_nil|?].
  - intros Hp. specialize (Hnew Hp). rewrite new_pages_all in Hnew. lia.
Qed.

Lemma opt_fault_bounds_witness :
  ∃ l n,
    OPTPageReplacement.loop 3 3 [1; 2; 3; 4; 1] ([], 0) = Ok (l, n)
    ∧ OPTPageReplacement.CalculatePageFaults
        (Build_AbstractPageReplacement [1; 2; 3; 4; 1] 3 3) = Ok n
    ∧ 0 ≤ n ≤ Z.of_nat (length [1; 2; 3; 4; 1])
    ∧ NoDup l ∧ Z.of_nat (length l) ≤ 3
    ∧ (∀ y, y ∈ l → y ∈ [1; 2; 3; 4; 1])
    ∧ (size_t_of_int 3 = 3 → distinct_pages [1; 2; 3; 4; 1] ≤ n).
Proof.
  apply (opt_fault_bounds [1; 2; 3; 4; 1] 3 3).
  - unfold INT_MAX. lia.
  - by vm_compute.
Defined.

(** ** One frame *)

Section OneFrame.

Implicit Types (s l : list Z) (h x n : Z).

Lemma one_frame_range : 1 ≤ 1 ≤ INT_MAX.
Proof. unfold INT_MAX. lia. Qed.

Lemma no_adjacent_dup_cons h x s :
  no_adjacent_dup (h :: x :: s) = true →
  h ≠ x ∧ no_adjacent_dup (x :: s) = true.
Proof.
  intros H.
  change (negb (h =? x) && no_adjacent_dup (x :: s) = true) in H.
  apply andb_true_iff in H as [Hne H]. split; [|done].
  intros ->. by rewrite Z.eqb_refl in Hne.
Qed.

Lemma fifo_replay_one_frame : ∀ s h n,
  no_adjacent_dup (h :: s) = true → n + Z.of_nat (length s) ≤ INT_MAX →
  ∃ l, replay (FIFOPageReplacement.step 1) s ([h], n)
       = Ok (l, n + Z.of_nat (length s)).
Proof.
  induction s as [|x s IH]; intros h n Hadj Hn.
  - exists [h]. cbn. do 2 f_equal. lia.
  - apply no_adjacent_dup_cons in Hadj as [Hne Hadj]. cbn [length] in Hn.
    cbn [replay].
    destruct (fifo_step_full 1 one_frame_range [h] n x)
      as (h' & t & Heq & ->); [|done|lia|].
    { by intros ->%list_elem_of_singleton. }
    simplify_eq. rewrite bind_Ok. cbn [app].
    destruct (IH x (n + 1) Hadj) as [l ->]; [lia|].
    exists l. cbn [length]. do 2 f_equal. lia.
Qed.

Lemma lru_replay_one_frame : ∀ s h n,
  no_adjacent_dup (h :: s) = true → n + Z.of_nat (length s) ≤ INT_MAX →
  ∃ l, replay (LRUPageReplacement.step 1) s ([h], n)
       = Ok (l, n + Z.of_nat (length s)).
Proof.
  induction s as [|x s IH]; intros h n Hadj Hn.
  - exists [h]. cbn. do 2 f_equal. lia.
  - apply no_adjacent_dup_cons in Hadj as [Hne Hadj]. cbn [length] in Hn.
    cbn [replay].
    destruct (lru_step_full 1 one_frame_range [h] n x)
      as (h' & t & Heq & ->); [|done|lia|].
    { by intros ->%list_elem_of_singleton. }
    simplify_eq. rewrite bind_Ok. cbn [app].
    destruct (IH x (n + 1) Hadj) as [l ->]; [lia|].
    exists l. cbn [length]. do 2 f_equal. lia.
Qed.

Lemma opt_loop_one_frame num_frames : ∀ s h n,
  no_adjacent_dup (h :: s) = true → n + Z.of_nat (length s) ≤ INT_MAX →
  ∃ l, OPTPageReplacement.loop 1 num_frames s ([h], n)
       = Ok (l, n + Z.of_nat (length s)).
Proof.
  induction s as [|x s IH]; intros h n Hadj Hn.
  - exists [h]. cbn. do 2 f_equal. lia.
  - apply no_adjacent_dup_cons in Hadj as [Hne Hadj]. cbn [length] in Hn.
    cbn [OPTPageReplacement.loop].
    destruct (opt_step_evict 1 num_frames [h] n x s)
      as (a & v & b & Heq & -> & _);
      [apply NoDup_singleton|done| |done|lia|].
    { by intros ->%list_elem_of_singleton. }
    destruct a as [|? a]; cbn [app] in Heq;
      [|destruct a; cbn [app] in Heq; simplify_eq].
    simplify_eq. rewrite bind_Ok. cbn [app].
    destruct (IH x (n + 1) Hadj) as [l ->]; [lia|].
    exists l. cbn [length]. do 2 f_equal. lia.
Qed.

End OneFrame.

(** X13. On a reference string without equal adjacent requests, FIFO and
    LRU with one frame count every request as a fault, and so does OPT
    with one page and a number of frames other than 0. *)
Theorem one_frame_every_request_faults
    (s : list Z) (num_pages num_frames : Z) :
  no_adjacent_dup s = true →
  Z.of_nat (length s) ≤ INT_MAX →
  FIFOPageReplacement.CalculatePageFaults
    (Build_AbstractPageReplacement s num_pages 1) = Ok (Z.of_nat (length s))
  ∧ LRUPageReplacement.CalculatePageFaults
      (Build_AbstractPageReplacement s num_pages 1) = Ok (Z.of_nat (length s))
  ∧ (size_t_of_int num_frames ≠ 0 →
     OPTPageReplacement.CalculatePageFaults
       (Build_AbstractPageReplacement s 1 num_frames)
     = Ok (Z.of_nat (length s))).
Proof.
  intros Hadj Hlen.
  unfold FIFOPageReplacement.CalculatePageFaults,
    LRUPageReplacement.CalculatePageFaults,
    OPTPageReplacement.CalculatePageFaults.
  cbn [ref_string_ num_pages_ num_frames_].
  destruct s as [|h s]; [done|]. cbn [length] in Hlen.
  cbn [replay OPTPageReplacement.loop]. split_and!.
  - rewrite (fifo_step_room 1 one_frame_range) by (done || by intros ?%elem_of_nil).
    rewrite bind_Ok. cbn [app].
    destruct (fifo_replay_one_frame s h (0 + 1) Hadj) as [l ->]; [lia|].
    rewrite bind_Ok. cbn [snd length]. f_equal. lia.
  - rewrite (lru_step_room 1 one_frame_range) by (done || by intros ?%elem_of_nil).
    rewrite bind_Ok. cbn [app].
    destruct (lru_replay_one_frame s h (0 + 1) Hadj) as [l ->]; [lia|].
    rewrite bind_Ok. cbn [snd length]. f_equal. lia.
  - intros Hc.
    rewrite opt_step_insert;
      [|by intros ?%elem_of_nil|done|cbn [length]; lia|done].
    rewrite bind_Ok. cbn [app].
    destruct (opt_loop_one_frame num_frames s h (0 + 1) Hadj) as [l ->]; [lia|].
    rewrite bind_Ok. cbn [snd length]. f_equal. lia.
Qed.

Lemma one_frame_every_request_faults_witness :
  FIFOPageReplacement.CalculatePageFaults
    (Build_AbstractPageReplacement [1; 2; 1; 3] 9 1)
  = Ok (Z.of_nat (length [1; 2; 1; 3]))
  ∧ LRUPageReplacement.CalculatePageFaults
      (Build_AbstractPageReplacement [1; 2; 1; 3] 9 1)
    = Ok (Z.of_nat (length [1; 2; 1; 3]))
  ∧ (size_t_of_int 5 ≠ 0 →
     OPTPageReplacement.CalculatePageFaults
       (Build_AbstractPageReplacement [1; 2; 1; 3] 1 5)
     = Ok (Z.of_nat (length [1; 2; 1; 3]))).
Proof.
  apply (one_frame_every_request_faults [1; 2; 1; 3] 9 5).
  - reflexivity.
  - by vm_compute.
Defined.

(** ** LRU against FIFO *)

Section LruFifo.

Implicit Types (l s : list Z) (x n : Z).

(** A step of FIFO that returns leaves the count as it is on a hit and
    raises it by one on a miss. *)
Lemma fifo_step_Ok_inv num_frames l n x l' n' :
  FIFOPageReplacement.step num_frames (l, n) x = Ok (l', n') →
  (x ∈ l ∧ l' = l ∧ n' = n) ∨ ((x ∉ l) ∧ n' = n + 1).
Proof.
  intros Hstep. destruct (decide (x ∈ l)) as [Hin|Hnin].
  { rewrite fifo_step_hit in Hstep by done. simplify_eq. by left. }
  right. split; [done|]. unfold FIFOPageReplacement.step in Hstep.
  rewrite (proj2 (FindInContainer_not_elem_of x l) Hnin) in Hstep.
  cbn [negb] in Hstep. unfold incr in Hstep.
  destruct (if Z.of_nat (length l) =? size_t_of_int num_frames
            then pop_front l else Ok l) as [l1| | |]; try done.
  rewrite bind_Ok in Hstep.
  destruct (Z.ltb_spec n INT_MAX); [|done]. rewrite bind_Ok in Hstep.
  by simplify_eq.
Qed.

(** A step of FIFO returns or is undefined. *)
Lemma fifo_step_outcome num_frames l n x :
  (∃ st', FIFOPageReplacement.step num_frames (l, n) x = Ok st')
  ∨ FIFOPageReplacement.step num_frames (l, n) x = Undefined.
Proof.
  unfold FIFOPageReplacement.step, incr.
  destruct (FindInContainer x l); cbn [negb]; [by eauto|].
  destruct (Z.of_nat (length l) =? size_t_of_int num_frames);
    [destruct l; cbn [pop_front]|];
    rewrite ?bind_Ok; destruct (n <? INT_MAX); rewrite ?bind_Ok; eauto.
Qed.

Lemma fifo_replay_count_le num_frames : ∀ s l n l' n',
  replay (FIFOPageReplacement.step num_frames) s (l, n) = Ok (l', n') →
  n ≤ n' ≤ n + Z.of_nat (length s).
Proof.
  induction s as [|x s IH]; intros l n l' n' Hrun.
  - cbn in Hrun. simplify_eq. cbn [length]. lia.
  - cbn [replay] in Hrun.
    destruct (FIFOPageReplacement.step num_frames (l, n) x)
      as [[l1 n1]| | |] eqn:Hstep; try done.
    rewrite bind_Ok in Hrun. apply IH in Hrun. cbn [length].
    apply fifo_step_Ok_inv in Hstep as [(_ & _ & ->)|[_ ->]]; lia.
Qed.

(** The LRU replay is the FIFO replay for as long as no request hits,
    and undefined from the first hit on: it returns what FIFO returns
    when FIFO has counted every request as a fault. *)
Lemma lru_replay_fifo num_frames : ∀ s l n,
  replay (LRUPageReplacement.step num_frames) s (l, n)
  = match replay (FIFOPageReplacement.step num_frames) s (l, n) with
    | Ok (l', n') =>
        if n' =? n + Z.of_nat (length s) then Ok (l', n') else Undefined
    | _ => Undefined
    end.
Proof.
  induction s as [|x s IH]; intros l n.
  - cbn [replay length]. by rewrite Z.add_0_r, Z.eqb_refl.
  - cbn [replay length]. destruct (decide (x ∈ l)) as [Hin|Hnin].
    + rewrite lru_step_hit, fifo_step_hit by done. rewrite bind_Ok.
      destruct (replay (FIFOPageReplacement.step num_frames) s (l, n))
        as [[l' n']| | |] eqn:Hrun; try done.
      apply fifo_replay_count_le in Hrun.
      destruct (Z.eqb_spec n' (n + Z.of_nat (S (length s)))); [lia|done].
    + rewrite lru_step_miss by done.
      destruct (fifo_step_outcome num_frames l n x) as [[[l1 n1] Hstep]|Hstep];
        rewrite Hstep; [|done].
      rewrite !bind_Ok, IH.
      apply fifo_step_Ok_inv in Hstep as [(? & _)|[_ ->]]; [done|].
      destruct (replay (FIFOPageReplacement.step num_frames) s (l1, n + 1))
        as [[l' n']| | |]; try done.
      by replace (n + 1 + Z.of_nat (length s))
        with (n + Z.of_nat (S (length s))) by lia.
Qed.

End LruFifo.

(** X5. LRU returns a count only for a reference string on which no
    request hits: its result is FIFO's result when FIFO has counted every
    request as a fault, and the call is undefined in every other case,
    for every value of the two bounds. *)
Theorem lru_returns_only_without_hit (s : list Z) (num_pages num_frames : Z) :
  LRUPageReplacement.CalculatePageFaults
    (Build_AbstractPageReplacement s num_pages num_frames)
  = match FIFOPageReplacement.CalculatePageFaults
            (Build_AbstractPageReplacement s num_pages num_frames) with
    | Ok n => if n =? Z.of_nat (length s) then Ok n else Undefined
    | _ => Undefined
    end.
Proof.
  unfold LRUPageReplacement.CalculatePageFaults,
    FIFOPageReplacement.CalculatePageFaults.
  cbn [ref_string_ num_frames_]. rewrite lru_replay_fifo.
  destruct (replay (FIFOPageReplacement.step num_frames) s ([], 0))
    as [[l n]| | |]; try done.
  rewrite bind_Ok. cbn [snd]. rewrite Z.add_0_l.
  by destruct (n =? Z.of_nat (length s)).
Qed.

(** ** Searching *)

(** X14. [FindInContainer] returns true exactly when the needle occurs in
    the container. *)
Theorem FindInContainer_true_iff_member (needle : Z) (haystack : list Z) :
  FindInContainer needle haystack = bool_decide (needle ∈ haystack).
Proof.
  destruct (FindInContainer needle haystack) eqn:Hfind.
  - symmetry. by apply bool_decide_eq_true, FindInContainer_elem_of.
  - symmetry. by apply bool_decide_eq_false, FindInContainer_not_elem_of.
Qed.

(** ** FIFO keeps the pages last loaded *)

Section FifoLoads.

Implicit Types (l loads s : list Z) (x n : Z).



End FifoLoads.



(** ** What the generator returns *)

Section GeneratorResult.

Variable rand : nat → Z.
Variable upper_bound : Z.

Implicit Types (v : list Z) (i k fuel : nat).

Lemma deref_inv v i a : deref v i = Ok a → v !! i = Some a.
Proof. unfold deref. by destruct (v !! i); intros; simplify_eq. Qed.

Lemma draw_inv k r k' :
  draw rand upper_bound k = Ok (r, k') →
  upper_bound ≠ 0 ∧ r = Z.rem (rand k) upper_bound.
Proof.
  unfold draw. destruct (Z.eqb_spec upper_bound 0); [done|].
  intros. by simplify_eq.
Qed.

Lemma assign_inv v i x v' :
  assign v i x = Ok v' → (i < length v)%nat ∧ v' = <[i:=x]> v.
Proof.
  unfold assign. destruct (Nat.ltb_spec i (length v)); [|done].
  intros. by simplify_eq.
Qed.

(** When the redraw loop ends, position [i] holds a value other than its
    predecessor: the value it held, or a draw. *)
Lemma redraw_loop_inv i : ∀ fuel v k v' k',
  redraw_loop fuel rand upper_bound i (v, k) = Ok (v', k') →
  (1 ≤ i)%nat →
  ∃ r b, v' = <[i:=r]> v ∧ v !! (i - 1)%nat = Some b ∧ r ≠ b
    ∧ (i < length v)%nat
    ∧ (v !! i = Some r
       ∨ (upper_bound ≠ 0 ∧ ∃ j, r = Z.rem (rand j) upper_bound)).
Proof.
  induction fuel as [|fuel IH]; intros v k v' k' Hrun Hi; [done|].
  cbn [redraw_loop] in Hrun.
  destruct (deref v i) as [a| | |] eqn:Ha; [|done..].
  destruct (deref v (i - 1)) as [b| | |] eqn:Hb; [|done..].
  apply deref_inv in Ha, Hb. rewrite !bind_Ok in Hrun.
  pose proof (lookup_lt_Some _ _ _ Ha) as Hlt.
  destruct (Z.eqb_spec a b) as [->|Hne].
  - destruct (draw rand upper_bound k) as [[r0 k0]| | |] eqn:Hdraw; [|done..].
    apply draw_inv in Hdraw as [Hub ->]. rewrite bind_Ok in Hrun.
    destruct (assign v i (Z.rem (rand k) upper_bound)) as [v1| | |] eqn:Hv1;
      [|done..].
    apply assign_inv in Hv1 as [_ ->]. rewrite bind_Ok in Hrun.
    destruct (IH _ _ _ _ Hrun Hi) as (r & b' & -> & Hb' & Hr & _ & Hfrom).
    rewrite list_lookup_insert_ne in Hb' by lia.
    assert (b' = b) as -> by congruence.
    exists r, b. rewrite list_insert_insert_eq.
    split_and!; [done|done|done|done|]. right. split; [done|].
    destruct Hfrom as [Hfrom|[_ Hfrom]]; [|done].
    rewrite list_lookup_insert_eq in Hfrom by done. simplify_eq. by eexists.
  - simplify_eq. exists a, b. rewrite list_insert_id by done.
    split_and!; [done|done|done|done|by left].
Qed.

Lemma fill_loop_inv fuel : ∀ n i v k v' k',
  fill_loop fuel rand upper_bound n i (v, k) = Ok (v', k') →
  (1 ≤ i)%nat → (i + n = length v)%nat →
  Forall (λ x, ∃ j, x = Z.rem (rand j) upper_bound) (take i v) →
  no_adjacent_dup (take i v) = true →
  length v' = length v
  ∧ Forall (λ x, ∃ j, x = Z.rem (rand j) upper_bound) v'
  ∧ no_adjacent_dup v' = true.
Proof.
  induction n as [|n IH]; intros i v k v' k' Hrun Hi Hlen Hdraws Hadj.
  - cbn in Hrun. simplify_eq. rewrite take_ge in Hdraws, Hadj by lia. done.
  - cbn [fill_loop] in Hrun.
    destruct (draw rand upper_bound k) as [[r0 k0]| | |] eqn:Hdraw; [|done..].
    apply draw_inv in Hdraw as [Hub ->]. rewrite bind_Ok in Hrun.
    destruct (assign v i (Z.rem (rand k) upper_bound)) as [v1| | |] eqn:Hv1;
      [|done..].
    apply assign_inv in Hv1 as [Hlt ->]. rewrite bind_Ok in Hrun.
    destruct (redraw_loop fuel rand upper_bound i
                (<[i:=Z.rem (rand k) upper_bound]> v, k0))
      as [[v2 k2]| | |] eqn:Hredraw; [|done..].
    rewrite bind_Ok in Hrun.
    apply redraw_loop_inv in Hredraw as (r & b & -> & Hb & Hr & _ & Hfrom);
      [|done].
    rewrite list_lookup_insert_ne in Hb by lia.
    rewrite list_insert_insert_eq in Hrun.
    rewrite list_lookup_insert_eq in Hfrom by done.
    apply IH in Hrun as (Hlen' & Hdraws' & Hadj').
    + rewrite length_insert in Hlen'. done.
    + lia.
    + rewrite length_insert. lia.
    + rewrite (take_S_r _ _ r) by (by apply list_lookup_insert_eq).
      rewrite take_insert_ge by lia. apply Forall_app. split; [done|].
      constructor; [|constructor].
      destruct Hfrom as [Hfrom|[_ Hfrom]]; [|done]. simplify_eq. by eexists.
    + rewrite (take_S_r _ _ r) by (by apply list_lookup_insert_eq).
      rewrite take_insert_ge by lia.
      apply no_adjacent_dup_snoc; [done|].
      rewrite last_lookup, length_take_le by lia.
      rewrite lookup_take_lt by lia.
      replace (pred i) with (i - 1)%nat by lia. rewrite Hb. congruence.
Qed.

End GeneratorResult.

Lemma GenerateRefString_Ok_inv
    (fuel : nat) (rand : nat → Z) (size upper_bound : Z) (v : list Z) :
  GenerateRefString fuel rand size upper_bound = Ok v →
  Z.of_nat (length v) = size
  ∧ no_adjacent_dup v = true
  ∧ Forall (λ x, (∃ j, x = Z.rem (rand j) upper_bound)
                 ∧ Z.abs x < Z.abs upper_bound) v.
Proof.
  unfold GenerateRefString. intros Hrun.
  destruct (Z.ltb_spec size 0) as [|Hsize]; [done|].
  destruct (Z.eqb_spec size 0) as [->|Hne].
  { simplify_eq. cbn. split_and!; [done|done|constructor]. }
  destruct (draw rand upper_bound 0) as [[r0 k0]| | |] eqn:Hdraw; [|done..].
  apply draw_inv in Hdraw as [Hub ->]. rewrite bind_Ok in Hrun.
  destruct (assign (replicate (Z.to_nat size) 0) 0 (Z.rem (rand 0%nat) upper_bound))
    as [v1| | |] eqn:Hv1; [|done..].
  apply assign_inv in Hv1 as [Hlt ->]. rewrite bind_Ok in Hrun.
  destruct (fill_loop fuel rand upper_bound (Z.to_nat (size - 1)) 1 _)
    as [[v2 k2]| | |] eqn:Hfill; [|done..].
  rewrite bind_Ok in Hrun. simplify_eq.
  rewrite length_replicate in Hlt.
  destruct (Z.to_nat size) as [|m] eqn:Hm; [lia|].
  apply fill_loop_inv in Hfill as (Hlen & Hdraws & Hadj).
  - split_and!; [|done|].
    + rewrite Hlen, length_insert, length_replicate. lia.
    + eapply Forall_impl; [exact Hdraws|]. intros x [j ->].
      split; [by eexists|]. by apply Z.rem_bound_abs.
  - done.
  - rewrite length_insert, length_replicate. lia.
  - cbn. constructor; [by eexists|constructor].
  - done.
Qed.

(** X16. Whatever the values of [rand()] and whatever the bound, a
    sequence that [GenerateRefString] returns has the requested length
    and no two equal adjacent elements; each element is a value of
    [rand()] modulo [upper_bound], so smaller in absolute value than
    [upper_bound]. *)
Theorem GenerateRefString_returned_sequence
    (fuel : nat) (rand : nat → Z) (size upper_bound : Z) (v : list Z) :
  GenerateRefString fuel rand size upper_bound = Ok v →
  Z.of_nat (length v) = size
  ∧ no_adjacent_dup v = true
  ∧ Forall (λ x, (∃ j, x = Z.rem (rand j) upper_bound)
                 ∧ Z.abs x < Z.abs upper_bound) v.
Proof. apply GenerateRefString_Ok_inv. Qed.

Lemma GenerateRefString_returned_sequence_witness :
  Z.of_nat (length [0; 1; 2; 0]) = 4
  ∧ no_adjacent_dup [0; 1; 2; 0] = true
  ∧ Forall (λ x, (∃ j, x = Z.rem (Z.of_nat j) (-3))
                 ∧ Z.abs x < Z.abs (-3)) [0; 1; 2; 0].
Proof.
  apply (GenerateRefString_returned_sequence 3 (λ k, Z.of_nat k) 4 (-3)).
  reflexivity.
Defined.

(** ** The reference string as text *)

Section Text.

Import MainWindow.

Implicit Types (s body rest : string) (v acc : list Z) (d : Z) (c : ascii).

Lemma append_cons c s1 s2 : String c s1 +:+ s2 = String c (s1 +:+ s2).
Proof. reflexivity. Qed.

Lemma append_assoc s1 s2 s3 : (s1 +:+ s2) +:+ s3 = s1 +:+ s2 +:+ s3.
Proof.
  induction s1 as [|c s1 IH]; [done|]. by rewrite !append_cons, IH.
Qed.

Lemma append_empty_r s : s +:+ "" = s.
Proof. induction s as [|c s IH]; [done|]. by rewrite append_cons, IH. Qed.

Lemma length_append s1 s2 :
  String.length (s1 +:+ s2) = (String.length s1 + String.length s2)%nat.
Proof.
  induction s1 as [|c s1 IH]; [done|].
  rewrite append_cons. cbn [String.length]. by rewrite IH.
Qed.

Lemma substring_append_l s1 s2 :
  String.substring 0 (String.length s1) (s1 +:+ s2) = s1.
Proof.
  induction s1 as [|c s1 IH].
  - by destruct s2.
  - rewrite append_cons. cbn [String.length String.substring]. by rewrite IH.
Qed.

(** A one-digit number is written as its digit and read back as itself. *)
Lemma read_digits_digit d rest acc :
  0 ≤ d ≤ 9 →
  read_digits (pretty d +:+ rest) acc = read_digits rest (acc ++ [d]).
Proof.
  intros Hd.
  assert (d = 0 ∨ d = 1 ∨ d = 2 ∨ d = 3 ∨ d = 4 ∨ d = 5 ∨ d = 6 ∨ d = 7
          ∨ d = 8 ∨ d = 9) as Hcases by lia.
  destruct Hcases as [->|[->|[->|[->|[->|[->|[->|[->|[->| ->]]]]]]]]];
    reflexivity.
Qed.

Lemma length_pretty_digit d : 0 ≤ d ≤ 9 → String.length (pretty d) = 1%nat.
Proof.
  intros Hd.
  assert (d = 0 ∨ d = 1 ∨ d = 2 ∨ d = 3 ∨ d = 4 ∨ d = 5 ∨ d = 6 ∨ d = 7
          ∨ d = 8 ∨ d = 9) as Hcases by lia.
  destruct Hcases as [->|[->|[->|[->|[->|[->|[->|[->|[->| ->]]]]]]]]];
    reflexivity.
Qed.

(** The delimiter is skipped. *)
Lemma read_digits_delimiter rest acc :
  read_digits (", " +:+ rest) acc = read_digits rest acc.
Proof. reflexivity. Qed.

(** What was written, without its last delimiter, reads back as the
    vector. *)
Lemma read_written_body : ∀ v d acc,
  Forall (λ x, 0 ≤ x ≤ 9) (d :: v) →
  ∃ body, write_ints (d :: v) = body +:+ ", "
          ∧ read_digits body acc = Ok (acc ++ d :: v).
Proof.
  induction v as [|e v IH]; intros d acc Hdigits.
  - exists (pretty d). split; [done|].
    apply Forall_cons in Hdigits as [Hd _].
    rewrite <- (append_empty_r (pretty d)).
    by rewrite read_digits_digit.
  - apply Forall_cons in Hdigits as [Hd Hdigits].
    destruct (IH e (acc ++ [d]) Hdigits) as (body & Hbody & Hread).
    exists (pretty d +:+ ", " +:+ body). split.
    + cbn [write_ints] in *. rewrite Hbody.
      by rewrite !append_assoc.
    + rewrite read_digits_digit, read_digits_delimiter, Hread by done.
      by rewrite <- app_assoc.
Qed.

Lemma drop_last_two_delimiter body :
  drop_last_two (body +:+ ", ") = body.
Proof.
  unfold drop_last_two. rewrite length_append. cbn [String.length].
  destruct (Z.ltb_spec (Z.of_nat (String.length body + 2)) 2) as [|_]; [lia|].
  replace (Z.to_nat (Z.min (Z.of_nat (String.length body + 2) - 2)
                           (Z.of_nat (String.length body + 2))))
    with (String.length body) by lia.
  apply substring_append_l.
Qed.

(** The digits read are those of the stream, appended to the vector. *)
Lemma read_digits_inv : ∀ s acc v,
  read_digits s acc = Ok v →
  ∃ new, v = acc ++ new ∧ Forall (λ x, 0 ≤ x ≤ 9) new
         ∧ (length new ≤ String.length s)%nat.
Proof.
  induction s as [|c s IH]; intros acc v Hread; cbn [read_digits] in Hread.
  - simplify_eq. exists []. rewrite app_nil_r. split_and!; [done|constructor|done].
  - destruct (is_space c).
    { destruct (IH _ _ Hread) as (new & -> & Hnew & Hlen).
      exists new. split_and!; [done|done|cbn; lia]. }
    unfold isdigit in Hread.
    destruct ((char_to_int c <? 0) && negb (char_to_int c =? -1)); [done|].
    rewrite bind_Ok in Hread.
    destruct ((48 <=? char_to_int c) && (char_to_int c <=? 57)) eqn:Hdigit;
      cbn [negb] in Hread.
    + apply andb_true_iff in Hdigit as [H1%Z.leb_le H2%Z.leb_le].
      destruct (IH _ _ Hread) as (new & -> & Hnew & Hlen).
      exists ((char_to_int c - 48) :: new). rewrite <- app_assoc.
      split_and!; [done| |cbn; lia].
      constructor; [lia|done].
    + destruct (IH _ _ Hread) as (new & -> & Hnew & Hlen).
      exists new. split_and!; [done|done|cbn; lia].
Qed.

End Text.

(** X17. The parsing loop of [MainWindow::CalculatePageFaults] returns,
    when it returns, page ids between 0 and 9, no more of them than the
    text has characters; on a text of characters below 128 it always
    returns. *)
Theorem read_digits_result (text : string) :
  (∀ v, MainWindow.read_digits text [] = Ok v →
        Forall (λ x, 0 ≤ x ≤ 9) v ∧ (length v ≤ String.length text)%nat)
  ∧ (Forall (λ c, (N_of_ascii c < 128)%N) (String.list_ascii_of_string text) →
     ∃ v, MainWindow.read_digits text [] = Ok v).
Proof.
  split.
  - intros v Hread. by destruct (read_digits_inv _ _ _ Hread) as (new & -> & ? & ?).
  - generalize (@nil Z). induction text as [|c text IH]; intros acc Hascii.
    + by eexists.
    + cbn [String.list_ascii_of_string] in Hascii.
      apply Forall_cons in Hascii as [Hc Hascii].
      cbn [MainWindow.read_digits]. destruct (MainWindow.is_space c); [by apply IH|].
      unfold MainWindow.isdigit, MainWindow.char_to_int.
      destruct (Z.ltb_spec (Z.of_N (N_of_ascii c)) 128) as [_|]; [|lia].
      destruct (Z.ltb_spec (Z.of_N (N_of_ascii c)) 0) as [|_]; [lia|].
      cbn [andb]. rewrite bind_Ok.
      destruct (negb _); by apply IH.
Qed.

(** X18. A vector of one-digit page ids written the way
    [MainWindow::GenerateReferenceString] writes it (decimal, separated
    by a comma and a space, the last separator cut off) is read back
    unchanged by the parsing loop of [MainWindow::CalculatePageFaults]. *)
Theorem written_digits_read_back (v : list Z) :
  Forall (λ x, 0 ≤ x ≤ 9) v →
  MainWindow.read_digits
    (MainWindow.drop_last_two (MainWindow.write_ints v)) [] = Ok v.
Proof.
  intros Hdigits. destruct v as [|d v]; [done|].
  destruct (read_written_body v d [] Hdigits) as (body & -> & Hread).
  by rewrite drop_last_two_delimiter.
Qed.

Lemma written_digits_read_back_witness :
  MainWindow.read_digits
    (MainWindow.drop_last_two (MainWindow.write_ints [3; 0; 9; 3])) []
  = Ok [3; 0; 9; 3].
Proof.
  apply (written_digits_read_back [3; 0; 9; 3]).
  repeat constructor; lia.
Defined.

(** X19. When [rand()] gives non-negative values and the number of pages
    is at most 10 in absolute value, the text that
    [MainWindow::GenerateReferenceString] produces is read back by the
    parsing loop of [MainWindow::CalculatePageFaults] as the very vector
    that was generated: 20 page ids, no two adjacent ones equal. *)
Theorem generated_text_reads_back
    (fuel : nat) (rand : nat → Z) (numPages : Z) (text : string) :
  (∀ k, 0 ≤ rand k) → -10 ≤ numPages ≤ 10 →
  MainWindow.GenerateReferenceString fuel rand numPages = Ok text →
  ∃ v, GenerateRefString fuel rand 20 numPages = Ok v
       ∧ length v = 20%nat
       ∧ no_adjacent_dup v = true
       ∧ MainWindow.read_digits text [] = Ok v.
Proof.
  intros Hrand Hpages. unfold MainWindow.GenerateReferenceString.
  destruct (GenerateRefString fuel rand 20 numPages) as [v| | |] eqn:Hgen;
    [|done..].
  rewrite bind_Ok. intros Htext. simplify_eq.
  destruct (GenerateRefString_Ok_inv _ _ _ _ _ Hgen) as (Hlen & Hadj & Hdraws).
  exists v. split_and!; [done|lia|done|].
  destruct v as [|d v]; [done|].
  destruct (read_written_body v d []) as (body & -> & Hread).
  - eapply Forall_impl; [exact Hdraws|]. intros x [[j ->] Habs].
    assert (numPages ≠ 0) as Hne by lia.
    pose proof (Z.rem_nonneg (rand j) numPages Hne (Hrand j)). lia.
  - by rewrite drop_last_two_delimiter.
Qed.

Lemma generated_text_reads_back_witness :
  ∃ v, GenerateRefString 3 (λ k, Z.of_nat k) 20 3 = Ok v
       ∧ length v = 20%nat
       ∧ no_adjacent_dup v = true
       ∧ MainWindow.read_digits
           "0, 1, 2, 0, 1, 2, 0, 1, 2, 0, 1, 2, 0, 1, 2, 0, 1, 2, 0, 1" []
         = Ok v.
Proof.
  apply (generated_text_reads_back 3 (λ k, Z.of_nat k) 3).
  - intros k. lia.
  - lia.
  - reflexivity.
Defined.

(** ** OPT against every demand-paging policy *)

Section Optimality.

#[local] Set Warnings "-clear-no-such-hyp".

Implicit Types (X Y W : gset Z) (s l : list Z) (a b x y n m : Z).

Lemma size_add X x : x ∉ X → size ({[x]} ∪ X) = S (size X).
Proof.
  intros Hx. rewrite size_union by set_solver. by rewrite size_singleton.
Qed.

Lemma size_remove X y : y ∈ X → S (size (X ∖ {[y]})) = size X.
Proof.
  intros Hy. rewrite <- (size_add (X ∖ {[y]}) y) by set_solver.
  f_equal. by rewrite <- union_difference_singleton_L.
Qed.

Variable c : nat.

Lemma demand_run_nonneg X s n : demand_run c X s n → 0 ≤ n.
Proof. induction 1; lia. Qed.

Lemma no_later_tail a b x s :
  x ≠ a → x ≠ b → no_later a b (x :: s) → no_later a b s.
Proof.
  intros Hxa Hxb [Hb|(pre & suf & Heq & Hpre)].
  - left. intros Hin. apply Hb. by right.
  - destruct pre as [|z pre]; cbn [app] in Heq; simplify_eq.
    right. exists pre, suf. split; [done|].
    intros Hin. apply Hpre. by right.
Qed.

Lemma no_later_head a b s : a ≠ b → ¬ no_later a b (b :: s).
Proof.
  intros Hab [Hb|(pre & suf & Heq & Hpre)].
  - apply Hb. by left.
  - destruct pre as [|z pre]; cbn [app] in Heq; simplify_eq.
    apply Hpre. by left.
Qed.

(** Two full sets of resident pages that differ in one page: replaying
    from the one costs at most one fault more than replaying from the
    other, and no more at all when its own page is requested no later. *)
Lemma exchange : ∀ s W a b n,
  a ∉ W → b ∉ W → S (size W) = c →
  demand_run c ({[b]} ∪ W) s n →
  ∃ n', demand_run c ({[a]} ∪ W) s n'
        ∧ n' ≤ n + 1 ∧ (no_later a b s → n' ≤ n).
Proof.
  induction s as [|x s IH]; intros W a b n Ha Hb Hsize Hrun.
  { inversion Hrun. exists 0. split_and!; [constructor|lia|lia]. }
  destruct (decide (a = b)) as [->|Hab].
  { exists n. split_and!; [done|lia|lia]. }
  inversion Hrun as [|? ? ? ? Hin Hrest|? ? ? ? Hnin Hnot Hrest
                     |? ? y ? m Hnin Hfull Hy Hrest].
  all: assert (size ({[b]} ∪ W) = c) as HsizeY by (by rewrite size_add).
  all: assert (size ({[a]} ∪ W) = c) as HsizeX by (by rewrite size_add).
  - (* a hit from the set with [b] *)
    destruct (decide (x = b)) as [->|Hxb].
    + exists (n + 1). split_and!; [|lia|].
      * apply (demand_evict c _ b a); [set_solver|done|set_solver|].
        replace ({[b]} ∪ ({[a]} ∪ W) ∖ {[a]}) with ({[b]} ∪ W) by set_solver.
        done.
      * intros Hno. by destruct (no_later_head a b s Hab).
    + assert (x ∈ W) as HxZ by set_solver.
      assert (x ≠ a) as Hxa by (intros ->; done).
      destruct (IH W a b n Ha Hb Hsize Hrest) as (n' & Hrun' & Hle & Hno).
      exists n'. split_and!; [|lia|].
      * apply demand_hit; [set_solver|done].
      * intros Hlater. apply Hno. by eapply no_later_tail.
  - (* the set is full: it cannot load without a removal *)
    done.
  - (* a miss from the set with [b], which removes [y] *)
    destruct (decide (x = a)) as [->|Hxa].
    + (* a hit from the set with [a] *)
      destruct (decide (y = b)) as [->|Hyb].
      * exists m. split_and!; [|lia|lia].
        apply demand_hit; [set_solver|].
        replace ({[a]} ∪ W) with ({[a]} ∪ ({[b]} ∪ W) ∖ {[b]}) by set_solver.
        done.
      * assert (y ∈ W) as HyZ by set_solver.
        destruct (IH ({[a]} ∪ W ∖ {[y]}) y b m) as (n' & Hrun' & Hle & _).
        -- set_solver.
        -- set_solver.
        -- rewrite size_add by set_solver. by rewrite size_remove.
        -- replace ({[b]} ∪ ({[a]} ∪ W ∖ {[y]}))
             with ({[a]} ∪ ({[b]} ∪ W) ∖ {[y]}) by set_solver.
           done.
        -- exists n'. split_and!; [|lia|lia].
           apply demand_hit; [set_solver|].
           replace ({[a]} ∪ W) with ({[y]} ∪ ({[a]} ∪ W ∖ {[y]})); [done|].
           apply set_eq. intros z. destruct (decide (z = y)); set_solver.
    + (* a miss from both *)
      assert (x ∉ {[a]} ∪ W) as HxX by set_solver.
      destruct (decide (y = b)) as [->|Hyb].
      * exists (m + 1). split_and!; [|lia|lia].
        apply (demand_evict c _ x a); [done|done|set_solver|].
        replace ({[x]} ∪ ({[a]} ∪ W) ∖ {[a]})
          with ({[x]} ∪ ({[b]} ∪ W) ∖ {[b]}) by set_solver.
        done.
      * assert (y ∈ W) as HyZ by set_solver.
        assert (x ≠ b) as Hxb by set_solver.
        destruct (IH ({[x]} ∪ W ∖ {[y]}) a b m) as (n' & Hrun' & Hle & Hno).
        -- set_solver.
        -- set_solver.
        -- rewrite size_add by set_solver. by rewrite size_remove.
        -- replace ({[b]} ∪ ({[x]} ∪ W ∖ {[y]}))
             with ({[x]} ∪ ({[b]} ∪ W) ∖ {[y]}) by set_solver.
           done.
        -- exists (n' + 1). split_and!; [|lia|].
           ++ apply (demand_evict c _ x y); [done|done|set_solver|].
              replace ({[x]} ∪ ({[a]} ∪ W) ∖ {[y]})
                with ({[a]} ∪ ({[x]} ∪ W ∖ {[y]})) by set_solver.
              done.
           ++ intros Hlater.
              assert (n' ≤ m); [|lia]. apply Hno. by eapply no_later_tail.
Qed.

Hypothesis frames_range : 1 ≤ Z.of_nat c ≤ INT_MAX.

Lemma size_pages l : NoDup l → size (list_to_set l : gset Z) = length l.
Proof. apply size_list_to_set. Qed.

Lemma pages_snoc l x :
  (list_to_set (l ++ [x]) : gset Z) = {[x]} ∪ list_to_set l.
Proof. rewrite list_to_set_app_L, list_to_set_singleton_L. set_solver. Qed.

(** FIFO is a demand-paging policy. *)
Lemma fifo_demand_run : ∀ s l n,
  NoDup l → (length l ≤ c)%nat → n + Z.of_nat (length s) ≤ INT_MAX →
  ∃ l' m, replay (FIFOPageReplacement.step (Z.of_nat c)) s (l, n)
          = Ok (l', n + m)
    ∧ demand_run c (list_to_set l) s m.
Proof.
  induction s as [|x s IH]; intros l n Hnd Hlen Hn.
  { exists l, 0. rewrite Z.add_0_r. split; [done|constructor]. }
  cbn [length] in Hn. cbn [replay].
  destruct (decide (x ∈ l)) as [Hin|Hnin].
  { rewrite fifo_step_hit, bind_Ok by done.
    destruct (IH l n Hnd Hlen) as (l' & m & -> & Hrun); [lia|].
    exists l', m. split; [done|].
    apply demand_hit; [by apply elem_of_list_to_set|done]. }
  assert (x ∉ (list_to_set l : gset Z)) as Hnin'.
  { by rewrite elem_of_list_to_set. }
  destruct (decide (Z.of_nat (length l) = Z.of_nat c)) as [Hfull|Hroom].
  - destruct (fifo_step_full (Z.of_nat c) frames_range l n x)
      as (h & t & -> & ->); [done|done|lia|].
    rewrite bind_Ok. apply NoDup_cons in Hnd as [Hh Hnd].
    apply not_elem_of_cons in Hnin as [Hxh Hnin].
    cbn [length] in Hlen, Hfull.
    destruct (IH (t ++ [x]) (n + 1)) as (l' & m & -> & Hrun).
    + by apply NoDup_snoc_fresh.
    + rewrite length_app. cbn [length]. lia.
    + lia.
    + exists l', (m + 1). split; [do 2 f_equal; lia|].
      apply (demand_evict c _ x h).
      * done.
      * rewrite size_pages by (by constructor). cbn [length]. lia.
      * apply elem_of_list_to_set. by left.
      * rewrite pages_snoc in Hrun. rewrite list_to_set_cons.
        replace ({[x]} ∪ ({[h]} ∪ list_to_set t) ∖ {[h]})
          with ({[x]} ∪ (list_to_set t : gset Z)); [done|].
        assert (h ∉ (list_to_set t : gset Z)) by (by rewrite elem_of_list_to_set).
        set_solver.
  - rewrite (fifo_step_room (Z.of_nat c) frames_range) by (done || lia).
    rewrite bind_Ok.
    destruct (IH (l ++ [x]) (n + 1)) as (l' & m & -> & Hrun).
    + by apply NoDup_snoc_fresh.
    + rewrite length_app. cbn [length]. lia.
    + lia.
    + exists l', (m + 1). split; [do 2 f_equal; lia|].
      apply demand_load; [done| |by rewrite <- pages_snoc].
      rewrite size_pages by done. lia.
Qed.

Lemma opt_optimal num_pages : ∀ s l n m,
  size_t_of_int num_pages = Z.of_nat c →
  NoDup l → (length l ≤ c)%nat → n + Z.of_nat (length s) ≤ INT_MAX →
  demand_run c (list_to_set l) s m →
  ∃ l' n', OPTPageReplacement.loop num_pages (Z.of_nat c) s (l, n)
           = Ok (l', n')
    ∧ n' ≤ n + m.
Proof.
  induction s as [|x s IH]; intros l n m Hp Hnd Hlen Hn Hrun.
  { exists l, n. split; [done|]. apply demand_run_nonneg in Hrun. lia. }
  cbn [length] in Hn. cbn [OPTPageReplacement.loop].
  inversion Hrun as [|? ? ? ? Hin Hrest|? ? ? m0 Hnin Hnot Hrest
                     |? ? y ? m0 Hnin Hfull Hy Hrest].
  - apply elem_of_list_to_set in Hin.
    rewrite opt_step_hit, bind_Ok by done.
    apply IH; [done|done|done|lia|done].
  - rewrite elem_of_list_to_set in Hnin. rewrite size_pages in Hnot by done.
    rewrite opt_step_insert, bind_Ok;
      [|done|lia|rewrite size_t_of_int_small by lia; lia|lia].
    destruct (IH (l ++ [x]) (n + 1) m0) as (l' & n' & -> & Hle).
    + done.
    + by apply NoDup_snoc_fresh.
    + rewrite length_app. cbn [length]. lia.
    + lia.
    + by rewrite pages_snoc.
    + exists l', n'. split; [done|lia].
  - rewrite elem_of_list_to_set in Hnin, Hy.
    rewrite size_pages in Hfull by done.
    destruct (opt_step_evict num_pages (Z.of_nat c) l n x s)
      as (a & v & b & -> & -> & Hfar); [done| |done|lia|lia|].
    { intros ->. cbn [length] in Hfull. lia. }
    rewrite bind_Ok.
    pose proof Hnd as Hnd0.
    apply NoDup_app in Hnd as (Ha & Hcross & Hvb).
    apply NoDup_cons in Hvb as [Hvb Hb].
    assert (v ∉ a) as Hva.
    { intros Hv. apply (Hcross v Hv). by left. }
    pose proof Hnin as Hnin0.
    apply not_elem_of_app in Hnin as [Hxa Hxvb].
    apply not_elem_of_cons in Hxvb as [Hxv Hxb].
    assert (NoDup (a ++ b ++ [x])) as Hnd1.
    { rewrite app_assoc. apply NoDup_snoc_fresh; [|by apply not_elem_of_app].
      apply NoDup_app. split_and!; [done| |done].
      intros z Hz Hz'. apply (Hcross z Hz). by right. }
    assert (length (a ++ b ++ [x]) ≤ c)%nat as Hlen1.
    { repeat rewrite length_app in Hfull. repeat rewrite length_app.
      cbn [length] in *. lia. }
    assert ((list_to_set (a ++ b ++ [x]) : gset Z)
            = {[x]} ∪ list_to_set (a ++ v :: b) ∖ {[v]}) as Hset1.
    { rewrite !list_to_set_app_L, list_to_set_singleton_L, list_to_set_cons.
      assert (v ∉ (list_to_set a : gset Z)) by (by rewrite elem_of_list_to_set).
      assert (v ∉ (list_to_set b : gset Z)) by (by rewrite elem_of_list_to_set).
      set_solver. }
    destruct (decide (y = v)) as [->|Hyv].
    + destruct (IH (a ++ b ++ [x]) (n + 1) m0) as (l' & n' & -> & Hle);
        [done|done|done|lia|by rewrite Hset1|].
      exists l', n'. split; [done|lia].
    + set (W := ({[x]} ∪ list_to_set (a ++ v :: b) ∖ {[v]} ∖ {[y]} : gset Z)).
      assert (y ∈ (list_to_set (a ++ v :: b) : gset Z)) as Hy'
        by (by rewrite elem_of_list_to_set).
      assert (v ∈ (list_to_set (a ++ v :: b) : gset Z)) as Hv'.
      { rewrite elem_of_list_to_set. apply elem_of_app. right. by left. }
      assert (x ∉ (list_to_set (a ++ v :: b) : gset Z)) as Hx'
        by (by rewrite elem_of_list_to_set).
      assert (x ≠ y) as Hxy by (intros ->; done).
      destruct (exchange s W y v m0) as (m1 & Hrun1 & _ & Hno).
      * unfold W. set_solver.
      * unfold W. set_solver.
      * unfold W. rewrite size_add by set_solver.
        rewrite size_remove by set_solver.
        rewrite size_remove by done. by rewrite size_pages.
      * replace ({[v]} ∪ W)
          with ({[x]} ∪ (list_to_set (a ++ v :: b) : gset Z) ∖ {[y]}); [done|].
        unfold W. apply set_eq. intros z.
        destruct (decide (z = v)); set_solver.
      * destruct (IH (a ++ b ++ [x]) (n + 1) m1) as (l' & n' & -> & Hle);
          [done|done|done|lia| |].
        { rewrite Hset1.
          replace ({[x]} ∪ (list_to_set (a ++ v :: b) : gset Z) ∖ {[v]})
            with ({[y]} ∪ W); [done|].
          unfold W. apply set_eq. intros z.
          destruct (decide (z = y)); set_solver. }
        exists l', n'. split; [done|].
        assert (m1 ≤ m0); [|lia]. apply Hno.
        destruct Hfar as [[Hvs _]|(pre & suf & -> & Hvpre & Hall)].
        -- by left.
        -- right. assert (y ∈ pre) as Hypre by (by apply Hall).
           destruct (list_elem_of_split _ _ Hypre) as (p1 & p2 & ->).
           exists p1, (p2 ++ v :: suf). split.
           ++ by rewrite <- app_assoc.
           ++ intros Hv. apply Hvpre, elem_of_app. by left.
Qed.

End Optimality.

(** X11. When [num_pages] equals [num_frames] (at least one frame), OPT
    counts no more faults than FIFO on the same reference string. *)
Theorem opt_no_more_faults_than_fifo
    (s : list Z) (num_pages num_frames : Z) :
  1 ≤ num_frames ≤ INT_MAX →
  size_t_of_int num_pages = num_frames →
  Z.of_nat (length s) ≤ INT_MAX →
  ∃ n_opt n_fifo,
    OPTPageReplacement.CalculatePageFaults
      (Build_AbstractPageReplacement s num_pages num_frames) = Ok n_opt
    ∧ FIFOPageReplacement.CalculatePageFaults
        (Build_AbstractPageReplacement s num_pages num_frames) = Ok n_fifo
    ∧ n_opt ≤ n_fifo.
Proof.
  intros Hc Hp Hlen.
  assert (Z.of_nat (Z.to_nat num_frames) = num_frames) as Hcc by lia.
  assert (1 ≤ Z.of_nat (Z.to_nat num_frames) ≤ INT_MAX) as Hc' by lia.
  destruct (fifo_demand_run (Z.to_nat num_frames) Hc' s [] 0)
    as (lf & mf & Hfifo & Hrunf); [constructor|simpl; lia|lia|].
  destruct (opt_optimal (Z.to_nat num_frames) Hc' num_pages s [] 0 mf)
    as (lo & no & Hopt & Hlef); [lia|constructor|simpl; lia|lia|done|].
  rewrite Hcc in Hfifo, Hopt.
  exists no, (0 + mf).
  unfold OPTPageReplacement.CalculatePageFaults,
    FIFOPageReplacement.CalculatePageFaults.
  cbn [ref_string_ num_pages_ num_frames_].
  rewrite Hopt, Hfifo, !bind_Ok. split_and!; [done|done|lia].
Qed.

Lemma opt_no_more_faults_than_fifo_witness :
  ∃ n_opt n_fifo,
    OPTPageReplacement.CalculatePageFaults
      (Build_AbstractPageReplacement [1; 2; 3; 1; 2; 4; 1; 2; 3] 3 3) = Ok n_opt
    ∧ FIFOPageReplacement.CalculatePageFaults
        (Build_AbstractPageReplacement [1; 2; 3; 1; 2; 4; 1; 2; 3] 3 3)
      = Ok n_fifo
    ∧ n_opt ≤ n_fifo.
Proof.
  apply (opt_no_more_faults_than_fifo [1; 2; 3; 1; 2; 4; 1; 2; 3] 3 3).
  - unfold INT_MAX. lia.
  - reflexivity.
  - by vm_compute.
Defined.

(** X12. When [num_pages] equals [num_frames] (at least one frame), OPT
    counts no more faults than any demand-paging replay of the same
    reference string with [num_frames] frames that starts with nothing
    resident, whatever pages that replay chooses to remove. *)
Theorem opt_no_more_faults_than_any_demand_paging
    (s : list Z) (num_pages num_frames m : Z) :
  1 ≤ num_frames ≤ INT_MAX →
  size_t_of_int num_pages = num_frames →
  Z.of_nat (length s) ≤ INT_MAX →
  demand_run (Z.to_nat num_frames) ∅ s m →
  ∃ n, OPTPageReplacement.CalculatePageFaults
         (Build_AbstractPageReplacement s num_pages num_frames) = Ok n
       ∧ n ≤ m.
Proof.
  intros Hc Hp Hlen Hrun.
  assert (Z.of_nat (Z.to_nat num_frames) = num_frames) as Hcc by lia.
  assert (1 ≤ Z.of_nat (Z.to_nat num_frames) ≤ INT_MAX) as Hc' by lia.
  destruct (opt_optimal (Z.to_nat num_frames) Hc' num_pages s [] 0 m)
    as (l & n & Hopt & Hle); [lia|constructor|simpl; lia|lia|done|].
  rewrite Hcc in Hopt. exists n.
  unfold OPTPageReplacement.CalculatePageFaults.
  cbn [ref_string_ num_pages_ num_frames_].
  rewrite Hopt, bind_Ok. split; [done|lia].
Qed.

Lemma opt_no_more_faults_than_any_demand_paging_witness :
  ∃ n, OPTPageReplacement.CalculatePageFaults
         (Build_AbstractPageReplacement [1; 2; 1] 1 1) = Ok n
       ∧ n ≤ 0 + 1 + 1 + 1.
Proof.
  apply (opt_no_more_faults_than_any_demand_paging [1; 2; 1] 1 1).
  - unfold INT_MAX. lia.
  - reflexivity.
  - by vm_compute.
  - apply demand_load; [by apply (bool_decide_unpack _)|done|].
    apply (demand_evict _ _ 2 1);
      [by apply (bool_decide_unpack _); vm_compute
      |by vm_compute
      |by apply (bool_decide_unpack _); vm_compute|].
    apply (demand_evict _ _ 1 2);
      [by apply (bool_decide_unpack _); vm_compute
      |by vm_compute
      |by apply (bool_decide_unpack _); vm_compute|].
    constructor.
Defined.

(** ** OPT with fewer pages than frames *)

Lemma opt_step_fewer_pages num_pages num_frames l n x rest :
  0 ≤ num_pages ≤ num_frames → num_frames ≤ INT_MAX →
  Z.of_nat (length l) ≤ num_pages →
  OPTPageReplacement.step num_pages num_frames (l, n) x rest
  = OPTPageReplacement.step num_pages num_pages (l, n) x rest.
Proof.
  intros Hp Hc Hlen. unfold OPTPageReplacement.step.
  rewrite !size_t_of_int_small by lia.
  destruct (Z.eqb_spec (Z.of_nat (length l)) num_pages) as [Heq|Hne].
  - destruct (FindInContainer x l); [by rewrite !andb_false_r|done].
  - cbn [andb].
    by rewrite (proj2 (Z.eqb_neq (Z.of_nat (length l)) num_frames)) by lia.
Qed.

Lemma opt_loop_fewer_pages num_pages num_frames : ∀ s l n,
  1 ≤ num_pages ≤ num_frames → num_frames ≤ INT_MAX →
  NoDup l → Z.of_nat (length l) ≤ num_pages →
  n + Z.of_nat (length s) ≤ INT_MAX →
  OPTPageReplacement.loop num_pages num_frames s (l, n)
  = OPTPageReplacement.loop num_pages num_pages s (l, n).
Proof.
  induction s as [|x s IH]; intros l n Hp Hc Hnd Hlen Hn; [done|].
  cbn [length] in Hn. cbn [OPTPageReplacement.loop].
  rewrite opt_step_fewer_pages by lia.
  destruct (opt_step_cases num_pages num_pages l n x s)
    as (l1 & n1 & -> & Hnd1 & Hlen1 & _ & Hn1 & _); [lia|done|done|lia|].
  rewrite !bind_Ok. apply IH; [done|done|done|done|lia].
Qed.

(** X10. With no more pages than frames (and at least one page), OPT
    takes [num_pages] for its number of frames: it returns what it
    returns when [num_frames] is set to [num_pages]. *)
Theorem opt_capacity_is_num_pages (s : list Z) (num_pages num_frames : Z) :
  1 ≤ num_pages ≤ num_frames → num_frames ≤ INT_MAX →
  Z.of_nat (length s) ≤ INT_MAX →
  OPTPageReplacement.CalculatePageFaults
    (Build_AbstractPageReplacement s num_pages num_frames)
  = OPTPageReplacement.CalculatePageFaults
      (Build_AbstractPageReplacement s num_pages num_pages).
Proof.
  intros Hp Hc Hlen. unfold OPTPageReplacement.CalculatePageFaults.
  cbn [ref_string_ num_pages_ num_frames_].
  rewrite opt_loop_fewer_pages; [done|done|done|constructor|simpl; lia|lia].
Qed.

Lemma opt_capacity_is_num_pages_witness :
  OPTPageReplacement.CalculatePageFaults
    (Build_AbstractPageReplacement [1; 2; 1; 2] 1 2)
  = OPTPageReplacement.CalculatePageFaults
      (Build_AbstractPageReplacement [1; 2; 1; 2] 1 1).
Proof.
  apply (opt_capacity_is_num_pages [1; 2; 1; 2] 1 2).
  - lia.
  - unfold INT_MAX. lia.
  - by vm_compute.
Defined.
